(** * Team optimiser: exhaustive partition search

    A shallow embedding of [backend/src/teamOptimizer.ts] (with the types of
    [backend/src/types.ts]) and the properties of its four components:
    the conflict scorer, the combination generator, the partition generator
    with symmetry breaking, and the optimisation driver. *)

Set Warnings "-rewrite-rw,-notation-overridden,-redundant-canonical-projection".
Set Warnings "-notation-for-abbreviation".
From Stdlib Require Import String ZArith Lia OrderedTypeEx.
From HB Require Import structures.
From mathcomp Require Import ssreflect ssrfun ssrbool eqtype ssrnat seq div.
From mathcomp Require Import bigop binomial.

Set Implicit Arguments.
Unset Strict Implicit.
Unset Printing Implicit Defensive.

(** ** Identifiers

    A person id is a JavaScript string.  [a < b] and [a <= b] on strings
    compare code units lexicographically; [String.ltb] and [String.leb] do the
    same on the characters of a Rocq string. *)

HB.instance Definition _ := hasDecEq.Build string String.eqb_spec.
HB.instance Definition _ := hasDecEq.Build Z Z.eqb_spec.

Definition str_lt (a b : string) : bool := String.ltb a b.
Definition str_le (a b : string) : bool := String.leb a b.

(** ** Data model ([types.ts]) *)

(** [ref] stands for the identity of the JavaScript object: the source tests
    membership with [Array.prototype.includes], which compares object
    references, not fields.  A reference determines the fields of its object,
    so on every heap that can exist two [Person] values with the same [ref] are
    the same record, and reference equality is equality of the whole record. *)
Record Person := mkPerson { ref : nat; id : string; name : string }.

Definition Person_to_tuple (p : Person) := (ref p, id p, name p).
Definition tuple_to_Person (t : nat * string * string) :=
  mkPerson t.1.1 t.1.2 t.2.
Lemma Person_tupleK : cancel Person_to_tuple tuple_to_Person.
Proof. by case. Qed.
HB.instance Definition _ := Equality.copy Person (can_type Person_tupleK).

(** A JavaScript object used as a map from string keys: an association list,
    read by key. *)
Definition obj (V : Type) := seq (string * V).

Fixpoint lookup {V : Type} (o : obj V) (k : string) : option V :=
  if o is (k', v) :: o' then if k' == k then Some v else lookup o' k
  else None.

(** [ConflictMatrix]: person id -> (person id -> count).  Counts are
    JavaScript numbers; they are integers here. *)
Definition ConflictMatrix := obj (obj Z).

Record Team := mkTeam { members : seq Person }.
Record TeamAssignment :=
  mkAssignment { teams : seq Team; conflictScore : Z }.

(** [executionTimeMs] is a wall-clock measurement and is left out. *)
Record OptimizationResult := mkResult {
  bestAssignments : seq TeamAssignment;
  totalCombinationsChecked : nat
}.

Definition Team_to_seq (t : Team) := members t.
Lemma Team_seqK : cancel Team_to_seq mkTeam.
Proof. by case. Qed.
HB.instance Definition _ := Equality.copy Team (can_type Team_seqK).

Definition Assignment_to_pair (a : TeamAssignment) := (teams a, conflictScore a).
Definition pair_to_Assignment (p : seq Team * Z) := mkAssignment p.1 p.2.
Lemma Assignment_pairK : cancel Assignment_to_pair pair_to_Assignment.
Proof. by case. Qed.
HB.instance Definition _ :=
  Equality.copy TeamAssignment (can_type Assignment_pairK).

(** ** Conflict scorer *)

(** [conflictMatrix[person1]?.[person2] ?? 0] *)
Definition entry (conflictMatrix : ConflictMatrix) (person1 person2 : string) : Z :=
  match lookup conflictMatrix person1 with
  | Some row => match lookup row person2 with
                | Some conflict => conflict
                | None => 0%Z
                end
  | None => 0%Z
  end.

(** The two nested index loops of one team: [team[i]] is paired with every
    later [team[j]], in increasing [i] and then increasing [j]. *)
Fixpoint team_pairs (conflictMatrix : ConflictMatrix) (totalScore : Z)
    (team : seq Person) : Z :=
  if team is person1 :: later then
    team_pairs conflictMatrix
      (foldl (fun total person2 =>
                (total + entry conflictMatrix (id person1) (id person2))%Z)
             totalScore later)
      later
  else totalScore.

Definition calculateConflictScore (teams : seq (seq Person))
    (conflictMatrix : ConflictMatrix) : Z :=
  foldl (team_pairs conflictMatrix) 0%Z teams.

(** The symmetric accessor of the front end ([getConflictBetween] in
    [frontend/src/routes/+page.svelte]):
    [m[a]?.[b] ?? m[b]?.[a] ?? 0]. *)
Definition getConflictBetween (conflictMatrix : ConflictMatrix)
    (person1Id person2Id : string) : Z :=
  match obind (fun row => lookup row person2Id) (lookup conflictMatrix person1Id) with
  | Some c => c
  | None =>
      match obind (fun row => lookup row person1Id) (lookup conflictMatrix person2Id) with
      | Some c => c
      | None => 0%Z
      end
  end.

(** ** Combination generator *)

(** [combinations(array, k)] for a natural [k]: the values the generator
    yields, in order.  The loop runs [i] from [0] to [array.length - k]; the
    [i]-th round takes [array[i]] and recurs on [array.slice(i + 1)]. *)
Fixpoint combinations {T : Type} (array : seq T) (k : nat) {struct k} :
    seq (seq T) :=
  match k with
  | 0 => [:: [::]]
  | k'.+1 =>
      if size array < k then [::]
      else flatten
             [seq (if drop i array is first :: rest
                   then [seq first :: combo | combo <- combinations rest k']
                   else [::])
             | i <- iota 0 (size array - k).+1]
  end.

(** ** Generators that may throw

    What a generator does until it ends: the values it yields, in order, and
    the exception that ended it, if one did. *)
Inductive exn :=
| InvalidInput (totalPeopleNeeded : Z) (peopleLength : nat)
    (* the Error thrown by the validation of optimizeTeams *)
| TypeError    (* reading a property of undefined *)
| RangeError.  (* the call stack is exhausted *)

Definition gen (A : Type) := (seq A * option exn)%type.

Definition gen_yield {A} (a : A) : gen A := ([:: a], None).
Definition gen_return {A} : gen A := ([::], None).
Definition gen_throw {A} (e : exn) : gen A := ([::], Some e).

(** Run [g1]; when it ends normally, go on with [g2]. *)
Definition gen_then {A} (g1 g2 : gen A) : gen A :=
  if g1.2 is Some _ then g1 else (g1.1 ++ g2.1, g2.2).

(** [for (const x of xs) body(x)] inside a generator, followed by [stop]. *)
Fixpoint gen_each {A B} (xs : seq A) (stop : gen B) (body : A -> gen B) : gen B :=
  if xs is x :: xs' then gen_then (body x) (gen_each xs' stop body) else stop.

(** The same over a generator: after the values of [g], its exception. *)
Definition gen_for {A B} (g : gen A) (body : A -> gen B) : gen B :=
  gen_each g.1 (if g.2 is Some e then gen_throw e else gen_return) body.

(** [combinations] called with a JavaScript number.  A negative [k] is never
    [0] and never exceeds [array.length], so every call enters the loop and
    recurs with [k - 1] before it yields anything: the recursion has no base
    case and ends with the engine's stack overflow. *)
Definition combinationsZ {T : Type} (array : seq T) (k : Z) : gen (seq T) :=
  if (k <? 0)%Z then gen_throw RangeError
  else (combinations array (Z.to_nat k), None).

(** ** Partition generator *)

(** [firstTeam.reduce((min, person) => person.id < min ? person.id : min, init)] *)
Definition min_id (init : string) (firstTeam : seq Person) : string :=
  foldl (fun min person => if str_lt (id person) min then id person else min)
        init firstTeam.

Arguments min_id init firstTeam : simpl never.

(** [generatePartitions(people, teamSizes, lastMinId)]; [lastMinId = None] is
    [null].  Reading [firstTeam[0].id] of an empty team is a TypeError; a
    candidate whose least id is [<=] the threshold is skipped ([continue]). *)
Fixpoint generatePartitions (people : seq Person) (teamSizes : seq Z)
    (lastMinId : option string) : gen (seq (seq Person)) :=
  if teamSizes is firstTeamSize :: remainingTeamSizes then
    let nextTeamHasSameSize :=
      if remainingTeamSizes is next :: _ then next == firstTeamSize else false in
    gen_for (combinationsZ people firstTeamSize) (fun firstTeam =>
      if firstTeam is person0 :: _ then
        let minIdInTeam := min_id (id person0) firstTeam in
        if (if lastMinId is Some last then str_le minIdInTeam last else false)
        then gen_return
        else
          let remaining := [seq p <- people | p \notin firstTeam] in
          let nextMinId := if nextTeamHasSameSize then Some minIdInTeam else None in
          gen_for (generatePartitions remaining remainingTeamSizes nextMinId)
                  (fun restOfTeams => gen_yield (firstTeam :: restOfTeams))
      else gen_throw TypeError)
  else gen_yield [::].

(** ** Optimisation driver *)

(** The three variables of the search loop; [minScore = None] is [Infinity]. *)
Record search := mkSearch {
  best : seq TeamAssignment;
  minScore : option Z;
  combinationsChecked : nat
}.

Definition search0 : search := mkSearch [::] None 0.

Definition to_assignment (partition : seq (seq Person)) (score : Z) :=
  mkAssignment [seq mkTeam members | members <- partition] score.

(** One round of the [for] loop over the partitions. *)
Definition visit (conflictMatrix : ConflictMatrix) (maxResults : Z)
    (st : search) (partition : seq (seq Person)) : search :=
  let checked := (combinationsChecked st).+1 in
  let score := calculateConflictScore partition conflictMatrix in
  if (if minScore st is Some m then (score <? m)%Z else true) then
    mkSearch [:: to_assignment partition score] (Some score) checked
  else if (minScore st == Some score)
          && (Z.of_nat (size (best st)) <? maxResults)%Z then
    mkSearch (rcons (best st) (to_assignment partition score)) (minScore st) checked
  else mkSearch (best st) (minScore st) checked.

(** [a.slice(0, end)] *)
Definition slice0 {A} (a : seq A) (end_ : Z) : seq A :=
  if (end_ <? 0)%Z then take (Z.to_nat (Z.of_nat (size a) + end_)) a
  else take (Z.to_nat end_) a.

(** How a call ends: with a result, or with an exception; [Threw] also records
    how many partitions had been counted when the exception left the call. *)
Inductive outcome :=
| Returned (r : OptimizationResult)
| Threw (e : exn) (checked : nat).

Definition defaultMaxResults : Z := 10%Z.

(** [optimizeTeams(people, teamSizes, conflictMatrix, maxResults)], without
    the timer and the console output. *)
Definition optimizeTeams (people : seq Person) (teamSizes : seq Z)
    (conflictMatrix : ConflictMatrix) (maxResults : Z) : outcome :=
  let totalPeopleNeeded := foldl Z.add 0%Z teamSizes in
  if totalPeopleNeeded != Z.of_nat (size people) then
    Threw (InvalidInput totalPeopleNeeded (size people)) 0
  else
    let partitions := generatePartitions people teamSizes None in
    let st := foldl (visit conflictMatrix maxResults) search0 partitions.1 in
    if partitions.2 is Some e then Threw e (combinationsChecked st)
    else Returned (mkResult (slice0 (best st) maxResults) (combinationsChecked st)).

(** ** The server

    [backend/src/index.ts]: the handler of [POST /api/optimize].  A field of
    the body that is absent or [null] is [None]; arrays and objects are
    truthy, also when empty.  The call uses the default cap. *)
Module Server.

Record body := mkBody {
  people : option (seq Person);
  teamSizes : option (seq Z);
  conflictMatrix : option ConflictMatrix
}.

Inductive response :=
| Status200 (results : OptimizationResult)
| Status400 (error : string)
| Status500 (error : string).

Definition post_optimize (req : body) : response :=
  match people req, teamSizes req, conflictMatrix req with
  | Some people, Some teamSizes, Some conflictMatrix =>
      match optimizeTeams people teamSizes conflictMatrix defaultMaxResults with
      | Returned results => Status200 results
      | Threw _ _ => Status500 "Internal server error"
      end
  | _, _, _ => Status400 "Missing required fields"
  end.

End Server.

(** ** The optimise page

    [frontend/src/routes/+page.svelte].  A number of people is the length of
    an array; [teamSize] is what [parseInt(teamSizeInput)] gave, [None] for
    [NaN]. *)
Module Page.

Record Candidate := mkCandidate { person : Person; selected : bool }.

(** [calculateTeamSizes(totalPeople, teamSize)].  With [teamSize = 0] and
    somebody to place the number of full teams is [Infinity]: the loop pushes
    without bound and the call returns no list, [None].  With nobody, [0 / 0]
    and [0 % 0] are [NaN], both comparisons fail and the result is empty.
    [Math.floor] of the quotient rounds down, [%] takes the sign of the
    dividend. *)
Definition calculateTeamSizes (totalPeople : nat) (teamSize : Z) : option (seq Z) :=
  if teamSize == 0%Z then
    if totalPeople is 0 then Some [::] else None
  else
    let numFullTeams := (Z.of_nat totalPeople / teamSize)%Z in
    let remainder := Z.rem (Z.of_nat totalPeople) teamSize in
    let sizes := nseq (Z.to_nat numFullTeams) teamSize in
    Some (if (0 <? remainder)%Z then rcons sizes remainder else sizes).

Inductive message :=
| NoCandidate
| TeamSizeTooSmall
| NotEnough (teamSize : Z) (selected : nat).

(** What a click on the button does up to the request: an error message of
    one of the three guards, the body that is posted (the selected candidates
    travel with their [selected] field, which the server does not read), or
    no sizes to post. *)
Inductive submission :=
| Rejected (error : message)
| Posted (people : seq Person) (teamSizes : seq Z) (conflictMatrix : ConflictMatrix)
| NoSizes.

Definition optimizeTeams (candidates : seq Candidate) (teamSize : option Z)
    (conflictMatrix : ConflictMatrix) : submission :=
  let selectedCandidates := [seq person c | c <- candidates & selected c] in
  if size selectedCandidates == 0 then Rejected NoCandidate
  else if teamSize is Some teamSize then
    if (teamSize <? 2)%Z then Rejected TeamSizeTooSmall
    else if (Z.of_nat (size selectedCandidates) <? teamSize)%Z then
      Rejected (NotEnough teamSize (size selectedCandidates))
    else if calculateTeamSizes (size selectedCandidates) teamSize is Some teamSizes
    then Posted selectedCandidates teamSizes conflictMatrix
    else NoSizes
  else Rejected TeamSizeTooSmall.

(** [toggleCandidate(candidateId)]: the first candidate with the id, if any. *)
Fixpoint toggleCandidate (candidates : seq Candidate) (candidateId : string)
    : seq Candidate :=
  if candidates is c :: rest then
    if id (person c) == candidateId then mkCandidate (person c) (~~ selected c) :: rest
    else c :: toggleCandidate rest candidateId
  else [::].

Definition selectAll (candidates : seq Candidate) : seq Candidate :=
  [seq mkCandidate (person c) true | c <- candidates].

Definition deselectAll (candidates : seq Candidate) : seq Candidate :=
  [seq mkCandidate (person c) false | c <- candidates].

(** The conflicts listed under a team: each member with each later one,
    through the symmetric accessor, when the count is positive. *)
Fixpoint team_conflicts (conflictMatrix : ConflictMatrix) (members : seq Person)
    : seq (Person * Person * Z) :=
  if members is member1 :: later then
    [seq (member1, member2, getConflictBetween conflictMatrix (id member1) (id member2))
    | member2 <- later
    & (0 <? getConflictBetween conflictMatrix (id member1) (id member2))%Z]
    ++ team_conflicts conflictMatrix later
  else [::].

End Page.

(** ** The data scripts

    The suggested team sizes, as the script that fetches the team history
    and the script that writes the candidates list compute them, for a
    number of people that is the length of an array. *)
Definition suggestedTeamSizes (totalPeople : nat) : seq (seq nat) :=
  (if totalPeople %% 4 == 0 then [:: nseq (totalPeople %/ 4) 4] else [::]) ++
  (if totalPeople %% 3 == 0 then [:: nseq (totalPeople %/ 3) 3] else [::]) ++
  (if 7 <= totalPeople then
     let numTeamsOf4 := totalPeople %/ 4 in
     let remainder := totalPeople %% 4 in
     if remainder == 0 then [::]
     else if (remainder == 1) && (2 <= numTeamsOf4) then
       [:: 5 :: nseq (numTeamsOf4 - 1) 4]
     else if remainder == 2 then
       if 1 <= numTeamsOf4 then [:: 3 :: 3 :: nseq (numTeamsOf4 - 1) 4] else [::]
     else if remainder == 3 then [:: 3 :: nseq numTeamsOf4 4]
     else [::]
   else [::]).

(** ** Definitions of the properties *)

(** The ways to select [k] of [n] positions, as bit masks, in the order in
    which [combinations] visits them. *)
Fixpoint masks (n k : nat) {struct n} : seq bitseq :=
  match k, n with
  | 0, _ => [:: nseq n false]
  | _.+1, 0 => [::]
  | k'.+1, n'.+1 =>
      [seq true :: m | m <- masks n' k'] ++ [seq false :: m | m <- masks n' k]
  end.

(** The least id of a team, as the generator computes it. *)
Definition team_min (team : seq Person) : string :=
  if team is person0 :: _ then min_id (id person0) team else EmptyString.

(** The symmetry-breaking test: the least id [m] of a team passes when there
    is no threshold or [m] is not [<=] it. *)
Definition above (lastMinId : option string) (m : string) : bool :=
  if lastMinId is Some last then ~~ str_le m last else true.

(** [nextTeamHasSameSize], on natural sizes. *)
Definition same_next (s : nat) (rest : seq nat) : bool :=
  if rest is next :: _ then next == s else false.

(** [people.filter(p => !team.includes(p))] *)
Definition without (people team : seq Person) : seq Person :=
  [seq p <- people | p \notin team].

(** The partitions the generator yields when every size is positive. *)
Fixpoint partitions (people : seq Person) (sizes : seq nat)
    (lastMinId : option string) : seq (seq (seq Person)) :=
  if sizes is s :: rest then
    flatten
      [seq [seq team :: others
           | others <- partitions (without people team) rest
                         (if same_next s rest then Some (team_min team) else None)]
      | team <- combinations people s & above lastMinId (team_min team)]
  else [:: [::]].

(** The least score of a list of partitions; [None] for the empty list. *)
Definition min_score (conflictMatrix : ConflictMatrix)
    (l : seq (seq (seq Person))) : option Z :=
  foldl (fun acc p =>
           Some (if acc is Some a
                 then Z.min a (calculateConflictScore p conflictMatrix)
                 else calculateConflictScore p conflictMatrix))
        None l.

(** The partitions of [l] that no partition of [l] beats, in the order of [l]. *)
Definition ties (conflictMatrix : ConflictMatrix)
    (l : seq (seq (seq Person))) : seq (seq (seq Person)) :=
  [seq p <- l
  | all (fun q => (calculateConflictScore p conflictMatrix
                   <=? calculateConflictScore q conflictMatrix)%Z) l].

(** Sizes positive, summing to the number of people, ids unique. *)
Definition valid_input (people : seq Person) (teamSizes : seq Z) : bool :=
  [&& all (Z.ltb 0) teamSizes,
      foldl Z.add 0%Z teamSizes == Z.of_nat (size people)
    & uniq [seq id p | p <- people]].

(** The exceptions of the search are those of the engine, never the
    validation error. *)
Definition runtime_exn (e : option exn) : bool :=
  if e is Some (InvalidInput _ _) then false else true.

(** What a person record holds, without the identity of the object. *)
Definition content (p : Person) : string * string := (id p, name p).

Definition outcome_content (o : outcome) :=
  match o with
  | Returned r =>
      inl ([seq ([seq [seq content p | p <- members t] | t <- teams a],
                 conflictScore a)
           | a <- bestAssignments r],
           totalCombinationsChecked r)
  | Threw e checked => inr (e, checked)
  end.

(** An assignment, an outcome and a state of the search with every person
    replaced by its image under [f]. *)
Definition relabel_assignment (f : Person -> Person) (a : TeamAssignment) :=
  mkAssignment [seq mkTeam [seq f x | x <- members t] | t <- teams a]
               (conflictScore a).

Definition relabel_outcome (f : Person -> Person) (o : outcome) :=
  match o with
  | Returned r =>
      Returned (mkResult [seq relabel_assignment f a | a <- bestAssignments r]
                         (totalCombinationsChecked r))
  | Threw e checked => Threw e checked
  end.

Definition relabel_search (f : Person -> Person) (st : search) : search :=
  mkSearch [seq relabel_assignment f a | a <- best st]
           (minScore st) (combinationsChecked st).

(** The object of the second array in the slot that [p] has in the first. *)
Definition counterpart (people1 people2 : seq Person) (p : Person) : Person :=
  nth p people2 (index p people1).

(** The people whose id is above the threshold: those whose least-id team
    the symmetry breaking lets through. *)
Definition eligible (lastMinId : option string) (people : seq Person) : nat :=
  count (fun p => above lastMinId (id p)) people.

(** [p0] has the least id among the people above the threshold. *)
Definition least_above lastMinId (people : seq Person) (p0 : Person) : Prop :=
  [/\ p0 \in people, above lastMinId (id p0)
    & forall p, p \in people -> above lastMinId (id p) -> str_le (id p0) (id p)].

(** The number of partitions generated from [q] eligible people, following
    the recursion of the generator: within a run of equal sizes the least
    member of the team is the [i]-th eligible person from the top, its
    [s - 1] companions are above it, and the next team starts above it too. *)
Fixpoint canonical_count (q : nat) (sizes : seq nat) : nat :=
  if sizes is s :: rest then
    if same_next s rest then
      \sum_(0 <= i < q) 'C(i, s.-1) * canonical_count (i - s.-1) rest
    else 'C(q, s) * canonical_count (sumn rest) rest
  else 1.

(** The lengths of the maximal runs of adjacent equal sizes. *)
Fixpoint run_lengths (sizes : seq nat) : seq nat :=
  if sizes is s :: rest then
    if same_next s rest then
      if run_lengths rest is r :: rs then r.+1 :: rs else [:: 1]
    else 1 :: run_lengths rest
  else [::].

(** The multinomial coefficient of [N] over the sizes, and the product of
    the factorials of the run lengths. *)
Definition multinomial (N : nat) (sizes : seq nat) : nat :=
  N`! %/ \prod_(s <- sizes) s`!.

Definition runs_factorial (sizes : seq nat) : nat :=
  \prod_(r <- run_lengths sizes) r`!.

HB.instance Definition _ :=
  Monoid.isComLaw.Build Z 0%Z Z.add Z.add_assoc Z.add_comm Z.add_0_l.

(** The sum the scorer forms for one team: each member with each later one,
    the entry read in this direction. *)
Fixpoint pair_sum (conflictMatrix : ConflictMatrix) (team : seq Person) : Z :=
  if team is person1 :: later then
    (\big[Z.add/0%Z]_(person2 <- later)
        entry conflictMatrix (id person1) (id person2)
     + pair_sum conflictMatrix later)%Z
  else 0%Z.

(** Both directions of every pair hold the same count. *)
Definition symmetric (conflictMatrix : ConflictMatrix) : Prop :=
  forall a b, entry conflictMatrix a b = entry conflictMatrix b a.

(** Equal sizes stand next to each other: a size either repeats in the next
    slot or does not come back. *)
Fixpoint adjacent_runs {A : eqType} (sizes : seq A) : bool :=
  if sizes is s :: rest then
    ((if rest is next :: _ then next == s else false) || (s \notin rest))
    && adjacent_runs rest
  else true.

(** The conflicts the page lists under the teams of an assignment, added up. *)
Definition displayed_total (conflictMatrix : ConflictMatrix) (a : TeamAssignment) : Z :=
  \big[Z.add/0%Z]_(t <- teams a)
    \big[Z.add/0%Z]_(line <- Page.team_conflicts conflictMatrix (members t)) line.2.

(** ** Concrete inputs *)

Definition person (n : nat) (i : string) : Person := mkPerson n i i.

Definition four : seq Person :=
  [:: person 0 "1"; person 1 "2"; person 2 "3"; person 3 "4"].

Definition alice : Person := person 0 "1".
Definition bob : Person := person 1 "2".

(** The pair (1, 2) stored in the direction 1 -> 2, and in the direction
    2 -> 1. *)
Definition matrix_12 : ConflictMatrix := [:: ("1"%string, [:: ("2"%string, 5%Z)])].
Definition matrix_21 : ConflictMatrix := [:: ("2"%string, [:: ("1"%string, 5%Z)])].

(** The pair (1, 2) stored in both directions. *)
Definition matrix_both : ConflictMatrix :=
  [:: ("1"%string, [:: ("2"%string, 5%Z)]); ("2"%string, [:: ("1"%string, 5%Z)])].

(** Nine people with ids "1" to "9". *)
Definition nine : seq Person :=
  [:: person 0 "1"; person 1 "2"; person 2 "3"; person 3 "4"; person 4 "5";
      person 5 "6"; person 6 "7"; person 7 "8"; person 8 "9"].

(** The people of [four] as other objects. *)
Definition four_again : seq Person :=
  [:: person 10 "1"; person 11 "2"; person 12 "3"; person 13 "4"].

(** * Properties *)

(** ** The order on ids *)

Section StringOrder.

Lemma str_lt_irrefl (a : string) : str_lt a a = false.
Proof.
rewrite /str_lt /String.ltb.
by have /String_as_OT.cmp_eq : a = a by []; rewrite /String_as_OT.cmp => ->.
Qed.

Lemma str_leNgt (a b : string) : str_le a b = ~~ str_lt b a.
Proof.
rewrite /str_le /str_lt /String.leb /String.ltb String.compare_antisym.
by case: (String.compare b a).
Qed.

Lemma str_lt_trans (b a c : string) : str_lt a b -> str_lt b c -> str_lt a c.
Proof.
rewrite /str_lt /String.ltb.
case ab: (String.compare a b) => // _; case bc: (String.compare b c) => // _.
move/String_as_OT.cmp_lt: ab => ab; move/String_as_OT.cmp_lt: bc => bc.
have /String_as_OT.cmp_lt : String_as_OT.lt a c := @String_as_OT.lt_trans _ _ _ ab bc.
by rewrite /String_as_OT.cmp => ->.
Qed.

Lemma str_lt_total (a b : string) : a != b -> str_lt a b || str_lt b a.
Proof.
rewrite /str_lt /String.ltb String.compare_antisym.
case ab: (String.compare b a) => //.
by move/String.compare_eq_iff: ab => ->; rewrite eqxx.
Qed.

Lemma str_lt_asym (a b : string) : str_lt a b -> str_lt b a = false.
Proof.
move=> ab; case ba: (str_lt b a) => //.
by have := str_lt_trans ab ba; rewrite str_lt_irrefl.
Qed.

Lemma str_le_lt_trans (b a c : string) : str_le a b -> str_lt b c -> str_lt a c.
Proof.
rewrite str_leNgt => nba bc.
case: (a =P b) => [-> //|/eqP /str_lt_total].
by rewrite (negbTE nba) orbF => ab; apply: str_lt_trans bc.
Qed.

Lemma str_lt_le_trans (b a c : string) : str_lt a b -> str_le b c -> str_lt a c.
Proof.
rewrite str_leNgt => ab ncb.
case: (b =P c) => [<- //|/eqP /str_lt_total].
by rewrite (negbTE ncb) orbF => bc; apply: str_lt_trans bc.
Qed.

Lemma str_le_refl (a : string) : str_le a a.
Proof. by rewrite str_leNgt str_lt_irrefl. Qed.

Lemma str_ltW (a b : string) : str_lt a b -> str_le a b.
Proof. by move=> ab; rewrite str_leNgt str_lt_asym. Qed.

End StringOrder.

(** ** What the scorer computes *)

Section Scorer.

Variable m : ConflictMatrix.

Lemma team_pairsE total team : team_pairs m total team = (total + pair_sum m team)%Z.
Proof.
elim: team total => [|p later IHlater] total /=; first by rewrite Z.add_0_r.
rewrite IHlater Z.add_assoc; congr (_ + _)%Z.
elim: later total {IHlater} => [|q later IHlater] total /=.
  by rewrite big_nil Z.add_0_r.
by rewrite IHlater big_cons; lia.
Qed.

Lemma calculateConflictScoreE teams :
  calculateConflictScore teams m = \big[Z.add/0%Z]_(team <- teams) pair_sum m team.
Proof.
suff loop total : foldl (team_pairs m) total teams =
    (total + \big[Z.add/0%Z]_(team <- teams) pair_sum m team)%Z.
  by rewrite /calculateConflictScore loop.
elim: teams total => [|team teams IHteams] total /=.
  by rewrite big_nil Z.add_0_r.
by rewrite IHteams team_pairsE big_cons; lia.
Qed.

(** The order of the teams does not matter. *)
Lemma calculateConflictScore_perm_teams teams1 teams2 :
  perm_eq teams1 teams2 ->
  calculateConflictScore teams1 m = calculateConflictScore teams2 m.
Proof. by move=> perm; rewrite !calculateConflictScoreE (perm_big _ perm). Qed.

Hypothesis m_sym : symmetric m.

Let full (team : seq Person) : Z :=
  \big[Z.add/0%Z]_(p <- team) \big[Z.add/0%Z]_(q <- team) entry m (id p) (id q).
Let diag (team : seq Person) : Z :=
  \big[Z.add/0%Z]_(p <- team) entry m (id p) (id p).

Lemma pair_sum_full team : full team = (2 * pair_sum m team + diag team)%Z.
Proof.
rewrite /full /diag; elim: team => [|x team IHteam]; first by rewrite !big_nil.
rewrite !big_cons [pair_sum _ _]/=.
have -> : \big[Z.add/0%Z]_(p <- team)
             \big[Z.add/0%Z]_(q <- x :: team) entry m (id p) (id q)
          = (\big[Z.add/0%Z]_(p <- team) entry m (id x) (id p)
             + \big[Z.add/0%Z]_(p <- team)
                  \big[Z.add/0%Z]_(q <- team) entry m (id p) (id q))%Z.
  by rewrite -big_split; apply: eq_bigr => p _; rewrite big_cons (m_sym (id p)).
by rewrite IHteam; lia.
Qed.

(** On a symmetric matrix the order of the members does not matter either. *)
Lemma pair_sum_perm team1 team2 :
  perm_eq team1 team2 -> pair_sum m team1 = pair_sum m team2.
Proof.
move=> perm; have := pair_sum_full team1; have := pair_sum_full team2.
have -> : full team2 = full team1.
  rewrite /full -(perm_big _ perm) /=; apply: eq_bigr => p _.
  by rewrite (perm_big _ perm).
have -> : diag team2 = diag team1 by rewrite /diag (perm_big _ perm).
by lia.
Qed.

Lemma calculateConflictScore_perm_members teams1 teams2 :
  size teams1 = size teams2 ->
  (forall i, perm_eq (nth [::] teams1 i) (nth [::] teams2 i)) ->
  calculateConflictScore teams1 m = calculateConflictScore teams2 m.
Proof.
rewrite !calculateConflictScoreE.
elim: teams1 teams2 => [|t1 teams1 IH] [|t2 teams2] //= [sz] perm.
rewrite !big_cons (pair_sum_perm (perm 0)) (IH teams2) // => i.
exact: (perm i.+1).
Qed.

End Scorer.

(** C1.  The scorer charges a pair through the symmetric accessor, so a
    partition scores the same when a pair's entry is stored in the other
    direction.  The code reads only [matrix[team[i]][team[j]]] for [i < j]:
    for the team (1, 2) the entry stored as 2 -> 1, which the symmetric
    accessor of the front end finds, is not counted. *)
Theorem calculateConflictScore_one_direction :
  [/\ calculateConflictScore [:: [:: alice; bob]] matrix_12 = 5%Z,
      calculateConflictScore [:: [:: alice; bob]] matrix_21 = 0%Z
    & getConflictBetween matrix_21 (id alice) (id bob) = 5%Z].
Proof. by []. Qed.

(** C4.  The score does not depend on the order of the members of a team or
    of the teams.  On the code the order of two members decides which entry is
    read: the same team in two orders scores 5 and 0. *)
Theorem calculateConflictScore_member_order :
  [/\ perm_eq [:: alice; bob] [:: bob; alice],
      calculateConflictScore [:: [:: alice; bob]] matrix_12 = 5%Z
    & calculateConflictScore [:: [:: bob; alice]] matrix_12 = 0%Z].
Proof. by []. Qed.

(** ** The combination generator *)

Section Combinations.

Variable T : Type.
Implicit Types (s array c : seq T) (k : nat).

Lemma combinationsS array k :
  combinations array k.+1 =
    if size array < k.+1 then [::]
    else flatten
           [seq (if drop i array is first :: rest
                 then [seq first :: combo | combo <- combinations rest k]
                 else [::])
           | i <- iota 0 (size array - k.+1).+1].
Proof. by []. Qed.

Lemma combinations0 array : combinations array 0 = [:: [::]].
Proof. by []. Qed.

Lemma combinations_small s k : size s < k -> combinations s k = [::].
Proof. by case: k => // k; rewrite combinationsS => ->. Qed.

(** The loop over the first chosen position, read as a recursion on the
    array: a combination either takes the head or does not. *)
Lemma combinations_cons x s k :
  combinations (x :: s) k.+1 =
    [seq x :: c | c <- combinations s k] ++ combinations s k.+1.
Proof.
rewrite [LHS]combinationsS; set rhs := combinations s k.+1.
rewrite /= ltnS subSS; case: (ltnP (size s) k) => [lt_sk|le_ks].
  by rewrite /rhs !combinations_small // ltnW.
congr (_ ++ _).
rewrite /rhs combinationsS ltnS; case: (ltnP k (size s)) => [lt_ks|le_sk].
  rewrite -(subnSK lt_ks) (iotaDl 1 0) -map_comp.
  by congr flatten; apply: eq_map => i.
have -> : size s - k = 0 by apply/eqP; rewrite subn_eq0.
by [].
Qed.

Lemma combinations_nil k : combinations ([::] : seq T) k = if k is 0 then [:: [::]] else [::].
Proof. by case: k. Qed.

Lemma size_combinations s k : size (combinations s k) = 'C(size s, k).
Proof.
elim: s k => [|x s IHs] [|k]; rewrite ?bin0 //.
by rewrite combinations_cons size_cat size_map !IHs /= binS addnC.
Qed.

End Combinations.

Arguments combinations {T} array k : simpl never.

Lemma masks0 n : masks n 0 = [:: nseq n false].
Proof. by case: n. Qed.

Lemma combinations_masks (T : Type) (s : seq T) k :
  combinations s k = [seq mask m s | m <- masks (size s) k].
Proof.
elim: s k => [|x s IHs] [|k] //; first by rewrite masks0 /= mask_false.
by rewrite combinations_cons /= map_cat -!map_comp !IHs -map_comp.
Qed.

Lemma masks_sound n k :
  all (fun m => (size m == n) && (count (fun b : bool => b) m == k)) (masks n k).
Proof.
elim: n k => [|n IHn] [|k] //; first by rewrite masks0 /= size_nseq eqxx /= count_nseq.
rewrite /= all_cat !all_map; apply/andP; split.
  by apply: sub_all (IHn k) => m /=; rewrite !eqSS.
by apply: sub_all (IHn k.+1) => m /=; rewrite !eqSS.
Qed.

Lemma masks_uniq n k : uniq (masks n k).
Proof.
elim: n k => [|n IHn] [|k] //.
rewrite /= cat_uniq !map_inj_uniq ?IHn /=; try by move=> m1 m2 [].
by rewrite andbT; apply/hasPn => _ /mapP[m _ ->]; apply/mapP => -[].
Qed.

Section CombinationsEq.

Variable T : eqType.
Implicit Types (s c : seq T) (k : nat).

Lemma mem_combinations s k c :
  (c \in combinations s k) = subseq c s && (size c == k).
Proof.
elim: s k c => [|x s IHs] [|k] c.
- by rewrite inE subseq0; case: c.
- by rewrite subseq0; case: c.
- by rewrite combinations0 inE; case: c => [|y c]; rewrite ?sub0seq ?andbF.
rewrite combinations_cons mem_cat IHs; case: c => [|y c].
  by rewrite !sub0seq /= ?andbF ?orbF; apply/mapP => -[].
have [->|neq_yx] := eqVneq y x.
  have inj_cons : injective (cons x) by move=> c1 c2 [].
  rewrite (mem_map inj_cons) IHs /= eqxx eqSS.
  case sub: (subseq (x :: c) s); rewrite ?orbF //.
  by rewrite (subseq_trans (subseq_cons c x) sub) /= orbb.
rewrite /= (negbTE neq_yx) orb_idl // => /mapP[c' _ [eq_yx]].
by rewrite eq_yx eqxx in neq_yx.
Qed.

Lemma combinations_subseq s k c : c \in combinations s k -> subseq c s.
Proof. by rewrite mem_combinations => /andP[]. Qed.

Lemma combinations_size s k c : c \in combinations s k -> size c = k.
Proof. by rewrite mem_combinations => /andP[_ /eqP]. Qed.

Lemma combinations_uniq s k : uniq s -> uniq (combinations s k).
Proof.
elim: s k => [|x s IHs] [|k] //= /andP[x_notin uniq_s].
have inj_cons : injective (cons x) by move=> c1 c2 [].
rewrite combinations_cons cat_uniq (map_inj_uniq inj_cons) !IHs //.
rewrite andbT /=; apply/hasPn => c /combinations_subseq sub_c.
apply/negP => /mapP[c' _ eq_c]; case/negP: x_notin.
by apply: (mem_subseq sub_c); rewrite eq_c mem_head.
Qed.

End CombinationsEq.

(** C7.  [combinations S 0] is the single empty selection; there is none when
    [k] exceeds the length of [S]; otherwise there are [C(|S|, k)] of them,
    they select pairwise distinct sets of positions of [S] (the masks), each
    keeps the order of [S] and has [k] elements, and they are pairwise
    distinct as sequences when the elements of [S] are. *)
Theorem combinations_spec (T : eqType) (S : seq T) (k : nat) :
  [/\ combinations S 0 = [:: [::]],
      (size S < k -> combinations S k = [::]),
      size (combinations S k) = 'C(size S, k),
      [/\ combinations S k = [seq mask m S | m <- masks (size S) k],
          uniq (masks (size S) k)
        & all (fun m => (size m == size S) && (count (fun b : bool => b) m == k))
              (masks (size S) k)]
    & all (fun c => subseq c S && (size c == k)) (combinations S k)
      /\ (uniq S -> uniq (combinations S k))].
Proof.
split; first by [].
- exact: combinations_small.
- exact: size_combinations.
- split; [exact: combinations_masks | exact: masks_uniq | exact: masks_sound].
split; last exact: combinations_uniq.
by apply/allP=> c; rewrite mem_combinations.
Qed.

Lemma combinations_spec_witness :
  size (combinations [:: 1; 2; 3; 4] 2) = 6 /\ uniq (combinations [:: 1; 2; 3; 4] 2).
Proof.
have [_ _ sz _ [_ uniq_c]] := combinations_spec [:: 1; 2; 3; 4] 2.
by split; [rewrite sz | apply: uniq_c].
Defined.

(** ** The partition generator on positive sizes

    When every declared size is positive nothing throws, and the generator
    yields the list [partitions]. *)

Section Generators.

Variables A B : Type.

Lemma gen_each_ok (xs : seq A) (body : A -> gen B) (f : A -> seq B) :
  (forall x, List.In x xs -> body x = (f x, None)) ->
  gen_each xs gen_return body = (flatten [seq f x | x <- xs], None).
Proof.
elim: xs => [|x xs IHxs] //= body_ok.
have -> : body x = (f x, None) by apply: body_ok; left.
by rewrite /gen_then /= IHxs // => y y_in; apply: body_ok; right.
Qed.

End Generators.

Lemma In_mem (T : eqType) (x : T) (s : seq T) : List.In x s <-> x \in s.
Proof.
elim: s => [|y s IHs] //=; rewrite inE; split.
  by case=> [->|/IHs ->]; rewrite ?eqxx ?orbT.
by case/orP=> [/eqP ->|/IHs]; [left | right].
Qed.

Lemma generatePartitions_positive people (teamSizes : seq Z) lastMinId :
  all (Z.ltb 0) teamSizes ->
  generatePartitions people teamSizes lastMinId =
    (partitions people [seq Z.to_nat z | z <- teamSizes] lastMinId, None).
Proof.
elim: teamSizes people lastMinId => [|z zs IHzs] people lastMinId //=.
case/andP=> /Z.ltb_spec0 z_pos zs_pos.
have z_neg : (z <? 0)%Z = false by apply/Z.ltb_spec0; lia.
rewrite /combinationsZ z_neg /gen_for /=.
set same := (if zs is _ :: _ then _ else _).
have -> : same_next (Z.to_nat z) [seq Z.to_nat i | i <- zs] = same.
  rewrite /same; case: (zs) zs_pos => [|z' zs'] //= /andP[/Z.ltb_spec0 z'_pos _].
  by apply/eqP/eqP => [/Z2Nat.inj|->//]; apply; lia.
pose f team :=
  if above lastMinId (team_min team) then
    [seq team :: others
    | others <- partitions (without people team) [seq Z.to_nat i | i <- zs]
                  (if same then Some (team_min team) else None)]
  else [::].
rewrite (gen_each_ok (f := f)); last first.
  congr (_, _); rewrite /f; elim: (combinations _ _) => [|team teams IHteams] //=.
  by case: (above _ _); rewrite /= IHteams.
move=> team /In_mem /combinations_size; rewrite /f; case: team => [|person0 team] sz.
  by exfalso; move: sz => /=; lia.
rewrite -[min_id _ _]/(team_min (person0 :: team)).
have yield_ok rs :
    gen_each rs gen_return (fun restOfTeams => gen_yield ((person0 :: team) :: restOfTeams))
    = ([seq (person0 :: team) :: others | others <- rs], None).
  rewrite (gen_each_ok (f := fun others => [:: (person0 :: team) :: others])) //.
  by congr (_, _); elim: rs => [|r rs /= ->].
rewrite /above; case: lastMinId {f} => [last|]; last by rewrite IHzs //= yield_ok.
by case: (str_le _ last) => //=; rewrite IHzs //= yield_ok.
Qed.

(** ** The search loop *)

Section Search.

Variables (conflictMatrix : ConflictMatrix) (maxResults : Z).

Let partition := seq (seq Person).
Let score (p : partition) : Z := calculateConflictScore p conflictMatrix.
Let assign (p : partition) : TeamAssignment := to_assignment p (score p).

Local Notation min_score := (min_score conflictMatrix).
Local Notation ties := (ties conflictMatrix).

Lemma min_scoreE l :
  min_score l =
    foldl (fun acc p => Some (if acc is Some a then Z.min a (score p) else score p))
          None l.
Proof. by []. Qed.

Lemma tiesE l : ties l = [seq p <- l | all (fun q => (score p <=? score q)%Z) l].
Proof. by []. Qed.

Lemma min_score_rcons l p :
  min_score (rcons l p) =
    Some (if min_score l is Some a then Z.min a (score p) else score p).
Proof. by rewrite !min_scoreE -cats1 foldl_cat. Qed.

Lemma min_score_none l : min_score l = None -> l = [::].
Proof. by elim/last_ind: l => // l p _; rewrite min_score_rcons. Qed.

Lemma min_score_le l mn p :
  min_score l = Some mn -> p \in l -> (mn <= score p)%Z.
Proof.
elim/last_ind: l mn => // l q IHl mn; rewrite min_score_rcons mem_rcons inE.
case eq_l: (min_score l) => [a|] [<-].
  by case/orP=> [/eqP ->|/(IHl _ eq_l)]; lia.
by rewrite (min_score_none eq_l) orbF => /eqP ->; lia.
Qed.

Lemma min_score_attained l mn :
  min_score l = Some mn -> exists2 p, p \in l & score p = mn.
Proof.
elim/last_ind: l mn => // l q IHl mn; rewrite min_score_rcons.
case eq_l: (min_score l) => [a|] [<-]; last first.
  by exists q; rewrite ?mem_rcons ?mem_head.
have [p p_in eq_p] := IHl _ eq_l.
case: (Z.min_spec a (score q)) => -[_ ->].
  by exists p; rewrite // mem_rcons inE p_in orbT.
by exists q; rewrite // mem_rcons mem_head.
Qed.

Lemma is_min_score l mn p :
  min_score l = Some mn -> p \in l ->
  all (fun q => (score p <=? score q)%Z) l = (score p == mn).
Proof.
move=> eq_l p_in; apply/allP/eqP => [le_p|-> q /(min_score_le eq_l)]; last first.
  by move/Z.leb_spec0.
have [q /le_p /Z.leb_spec0 le_pq eq_q] := min_score_attained eq_l.
by have := min_score_le eq_l p_in; lia.
Qed.

Lemma ties_rcons_lt l mn p :
  min_score l = Some mn -> (score p < mn)%Z -> ties (rcons l p) = [:: p].
Proof.
move=> eq_l lt_p; rewrite !tiesE filter_rcons all_rcons Z.leb_refl /=.
have -> : all (fun q => (score p <=? score q)%Z) l.
  by apply/allP=> q /(min_score_le eq_l) ?; apply/Z.leb_spec0; lia.
rewrite -[RHS]cat0s -cats1; congr (_ ++ _).
rewrite -(filter_pred0 l); apply: eq_in_filter => q q_in.
rewrite all_rcons; apply/negbTE; rewrite negb_and; apply/orP; left.
by apply/negP => /Z.leb_spec0; have := min_score_le eq_l q_in; lia.
Qed.

Lemma ties_rcons_eq l p :
  min_score l = Some (score p) -> ties (rcons l p) = rcons (ties l) p.
Proof.
move=> eq_l; rewrite !tiesE filter_rcons all_rcons Z.leb_refl /=.
have -> : all (fun q => (score p <=? score q)%Z) l.
  by apply/allP=> q /(min_score_le eq_l) ?; apply/Z.leb_spec0; lia.
congr (rcons _ _); apply: eq_in_filter => q q_in; rewrite all_rcons.
rewrite (is_min_score eq_l q_in); case: eqP => [->|]; rewrite ?andbF //.
by rewrite Z.leb_refl.
Qed.

Lemma ties_rcons_gt l mn p :
  min_score l = Some mn -> (mn < score p)%Z -> ties (rcons l p) = ties l.
Proof.
move=> eq_l lt_p; rewrite !tiesE filter_rcons all_rcons Z.leb_refl /=.
have [q q_in eq_q] := min_score_attained eq_l.
have -> : all (fun q => (score p <=? score q)%Z) l = false.
  by apply/negP => /allP/(_ _ q_in) /Z.leb_spec0; lia.
apply: eq_in_filter => r r_in; rewrite all_rcons.
rewrite (is_min_score eq_l r_in); case: eqP => [->|]; rewrite ?andbF //.
by have -> : (mn <=? score p)%Z by apply/Z.leb_spec0; lia.
Qed.

Lemma ties_nonempty l mn : min_score l = Some mn -> 0 < size (ties l).
Proof.
move=> eq_l; have [p p_in eq_p] := min_score_attained eq_l.
rewrite size_filter -has_count; apply/hasP; exists p => //.
by rewrite (is_min_score eq_l p_in) eq_p.
Qed.

(** The state of the loop after the partitions of [l], in this order. *)
Lemma search_loop l :
  foldl (visit conflictMatrix maxResults) search0 l =
    mkSearch (take (Z.to_nat (Z.max 1 maxResults)) [seq assign p | p <- ties l])
             (min_score l) (size l).
Proof.
set n := Z.to_nat _.
have n_pos : 0 < n by apply/ltP; rewrite /n; lia.
elim/last_ind: l => [|l p IHl] //.
rewrite -cats1 foldl_cat IHl cats1 /= /visit /= size_rcons min_score_rcons.
rewrite -/(score p); case eq_l: (min_score l) => [mn|]; last first.
  rewrite (min_score_none eq_l) tiesE /= Z.leb_refl /=.
  by case: (n) n_pos.
case: Z.ltb_spec0 => [lt_p|ge_p].
  rewrite (ties_rcons_lt eq_l lt_p) /=.
  have ->: Z.min mn (score p) = score p by lia.
  by case: (n) n_pos.
have ->: Z.min mn (score p) = mn by lia.
set old := [seq assign q | q <- ties l].
have old_pos : 0 < size old by rewrite size_map (ties_nonempty eq_l).
case: eqP => [[eq_p]|neq_p] /=; last first.
  have neq : mn <> score p by move=> eq_p; case: neq_p; rewrite eq_p.
  by rewrite (@ties_rcons_gt _ mn) //; lia.
have eq_l' : min_score l = Some (score p) by rewrite -eq_p.
rewrite (ties_rcons_eq eq_l') map_rcons -/old.
rewrite size_take; case: Z.ltb_spec0 => [lt_k|ge_k].
  have lt_n : size old < n.
    apply/ltP; move: lt_k; rewrite /n; case: ltnP => [_|le_n]; last by lia.
    by move=> ?; have /ltP := old_pos; lia.
  by rewrite !take_oversize ?size_rcons // ltnW.
suff le_n : n <= size old by rewrite -cats1 takel_cat.
move: ge_k; case: ltnP => [/ltnW //|_ ge_k].
by apply/leP; move/ltP: old_pos; rewrite /n; lia.
Qed.

End Search.

(** ** What the partition generator yields *)

Lemma partitionsP people s rest lastMinId (p : seq (seq Person)) :
  reflect
    (exists team others,
       [/\ p = team :: others, team \in combinations people s,
           above lastMinId (team_min team)
         & others \in partitions (without people team) rest
                        (if same_next s rest then Some (team_min team) else None)])
    (p \in partitions people (s :: rest) lastMinId).
Proof.
apply: (iffP flatten_mapP) => [[team]|[team [others [-> team_in ok others_in]]]].
  rewrite mem_filter => /andP[ok team_in] /mapP[others others_in ->].
  by exists team, others.
by exists team; rewrite ?mem_filter ?ok //; apply/mapP; exists others.
Qed.

Lemma perm_without people team :
  uniq people -> subseq team people -> perm_eq (team ++ without people team) people.
Proof.
move=> uniq_people /(subseq_uniqP uniq_people) {1}->.
by rewrite /without (perm_filterC (mem team) people).
Qed.

Lemma without_uniq people team : uniq people -> uniq (without people team).
Proof. exact: filter_uniq. Qed.

Lemma size_without people team :
  uniq people -> subseq team people ->
  size (without people team) = size people - size team.
Proof.
move=> uniq_people sub; have /perm_size := perm_without uniq_people sub.
by rewrite size_cat => <-; rewrite addKn.
Qed.

(** Every partition yielded has teams of the declared sizes, in slot order, and
    its teams together hold every person exactly once. *)
Lemma partitions_cover people sizes lastMinId p :
  uniq people -> sumn sizes = size people ->
  p \in partitions people sizes lastMinId ->
  perm_eq (flatten p) people /\ [seq size team | team <- p] = sizes.
Proof.
elim: sizes people lastMinId p => [|s rest IHrest] people lastMinId p uniq_people.
  by rewrite /= inE => /esym/size0nil -> /eqP ->.
move=> sum_sizes /partitionsP[team [others [-> team_in _ others_in]]].
have sub := combinations_subseq team_in; have sz := combinations_size team_in.
have [] := IHrest _ _ _ (without_uniq team uniq_people) _ others_in.
  by rewrite size_without // sz -sum_sizes /= addKn.
move=> perm_others sizes_others; split; last by rewrite /= sz sizes_others.
by rewrite /= -(permPr (perm_without uniq_people sub)) perm_cat2l.
Qed.

Lemma foldl_Zadd a (zs : seq Z) :
  all (Z.ltb 0) zs ->
  foldl Z.add a zs = (a + Z.of_nat (sumn [seq Z.to_nat z | z <- zs]))%Z.
Proof.
elim: zs a => [|z zs IHzs] a /=; first by rewrite Z.add_0_r.
case/andP=> /Z.ltb_spec0 z_pos /IHzs ->.
by rewrite -plusE Nat2Z.inj_add Z2Nat.id; lia.
Qed.

Lemma valid_sum people teamSizes :
  valid_input people teamSizes ->
  sumn [seq Z.to_nat z | z <- teamSizes] = size people.
Proof.
case/and3P=> pos /eqP; rewrite foldl_Zadd // Z.add_0_l => /Nat2Z.inj.
by [].
Qed.

Lemma valid_uniq people teamSizes :
  valid_input people teamSizes -> uniq people.
Proof. by case/and3P=> _ _ /map_uniq. Qed.

(** On valid input the call returns; the result is read off the list of
    generated partitions. *)
Lemma optimizeTeams_valid people teamSizes conflictMatrix maxResults :
  valid_input people teamSizes ->
  let generated := (generatePartitions people teamSizes None).1 in
  optimizeTeams people teamSizes conflictMatrix maxResults =
    Returned
      (mkResult
         (slice0 (take (Z.to_nat (Z.max 1 maxResults))
                    [seq to_assignment p (calculateConflictScore p conflictMatrix)
                    | p <- ties conflictMatrix generated])
                 maxResults)
         (size generated)).
Proof.
case/and3P=> pos sum_ok _; rewrite /optimizeTeams sum_ok /=.
by rewrite generatePartitions_positive //= search_loop.
Qed.

Lemma slice0_take (A : Type) (s : seq A) (k : Z) :
  (0 < k)%Z -> slice0 (take (Z.to_nat (Z.max 1 k)) s) k = take (Z.to_nat k) s.
Proof.
move=> k_pos; rewrite /slice0.
have -> : (k <? 0)%Z = false by apply/Z.ltb_spec0; lia.
by have -> : Z.max 1 k = k by [lia]; rewrite take_takel.
Qed.

(** ** The driver: examples, validation, result shape and cap *)

(** Scenario A of the specification: four people, two teams of two, one
    recorded conflict between 1 and 2.  Three partitions are generated and
    the two without the pair (1, 2) are returned, in this order. *)
Example scenario_A :
  optimizeTeams four [:: 2%Z; 2%Z] matrix_12 defaultMaxResults =
    Returned (mkResult
      [:: to_assignment [:: [:: person 0 "1"; person 2 "3"];
                            [:: person 1 "2"; person 3 "4"]] 0%Z;
          to_assignment [:: [:: person 0 "1"; person 3 "4"];
                            [:: person 1 "2"; person 2 "3"]] 0%Z]
      3).
Proof. by vm_compute. Qed.

(** A size of 0 passes the validation when the sum matches; the search then
    reads [firstTeam[0].id] of an empty team and ends with a TypeError. *)
Example size_zero_TypeError :
  optimizeTeams [::] [:: 0%Z] [::] defaultMaxResults = Threw TypeError 0.
Proof. by vm_compute. Qed.

(** C10.  No people and no teams: the call returns, one partition (the empty
    one) is counted, and it is the single best assignment, with score 0. *)
Theorem optimizeTeams_nobody (conflictMatrix : ConflictMatrix) (maxResults : Z) :
  (0 < maxResults)%Z ->
  optimizeTeams [::] [::] conflictMatrix maxResults =
    Returned (mkResult [:: mkAssignment [::] 0%Z] 1).
Proof.
move=> k_pos; rewrite /optimizeTeams /= /visit /= /slice0.
have -> : (maxResults <? 0)%Z = false by apply/Z.ltb_spec0; lia.
by case eq_n: (Z.to_nat maxResults) => [|n] //; lia.
Qed.

Lemma optimizeTeams_nobody_witness :
  optimizeTeams [::] [::] matrix_12 defaultMaxResults =
    Returned (mkResult [:: mkAssignment [::] 0%Z] 1).
Proof. by apply: optimizeTeams_nobody. Defined.

Lemma gen_each_runtime (A B : Type) (xs : seq A) (stop : gen B) body :
  runtime_exn stop.2 -> (forall x, runtime_exn (body x).2) ->
  runtime_exn (gen_each xs stop body).2.
Proof.
move=> stop_ok body_ok; elim: xs => [|x xs IHxs] //=.
by rewrite /gen_then; case eq_x: (body x).2 (body_ok x) => [e|].
Qed.

Lemma generatePartitions_runtime people teamSizes lastMinId :
  runtime_exn (generatePartitions people teamSizes lastMinId).2.
Proof.
elim: teamSizes people lastMinId => [|z zs IHzs] people lastMinId //=.
apply: gen_each_runtime; first by rewrite /combinationsZ; case: (z <? 0)%Z.
case=> [|person0 team] //; case: (if lastMinId is Some _ then _ else _) => //.
apply: gen_each_runtime => //.
by case: (generatePartitions _ _ _).2 (IHzs (without people (person0 :: team))
          (if (if zs is next :: _ then next == z else false)
           then Some (min_id (id person0) (person0 :: team)) else None)).
Qed.

Lemma mem_slice0 (A : eqType) (s : seq A) (k : Z) : {subset slice0 s k <= s}.
Proof. by move=> a; rewrite /slice0; case: (k <? 0)%Z => /mem_take. Qed.

Lemma members_mkTeam (p : seq (seq Person)) :
  [seq members t | t <- [seq mkTeam team | team <- p]] = p.
Proof. by rewrite -map_comp map_id_in. Qed.

(** C3, as the code has it.  The validation throws exactly when the sizes do
    not sum to the number of people (which is the case for no sizes and some
    people); it throws before the counter exists, so nothing has been counted
    and there is no result.  A size that is not positive is not checked. *)
Theorem optimizeTeams_InvalidInput people teamSizes conflictMatrix maxResults :
  let total := foldl Z.add 0%Z teamSizes in
  [/\ total <> Z.of_nat (size people) ->
        optimizeTeams people teamSizes conflictMatrix maxResults =
          Threw (InvalidInput total (size people)) 0,
      teamSizes = [::] -> people <> [::] -> total <> Z.of_nat (size people)
    & forall needed len checked,
        optimizeTeams people teamSizes conflictMatrix maxResults =
          Threw (InvalidInput needed len) checked ->
        total <> Z.of_nat (size people) /\ checked = 0].
Proof.
rewrite /optimizeTeams /=; split.
- by move/eqP/negbTE => ->.
- by move=> ->; case: people.
move=> needed len checked; case: eqP => [_|neq [_ _ <-]] //=.
by case: (_.2) (generatePartitions_runtime people teamSizes None) => [[]|].
Qed.

Lemma optimizeTeams_InvalidInput_witness :
  optimizeTeams four [:: 2%Z] matrix_12 10 = Threw (InvalidInput 2 4) 0.
Proof. by have [-> //] := optimizeTeams_InvalidInput four [:: 2%Z] matrix_12 10. Defined.

(** C3 as stated fails: two people and the sizes 3 and -1 sum to 2, so the
    validation passes although a size is not positive; the first size has no
    combination, and the call returns an empty result. *)
Lemma optimizeTeams_InvalidInput_counterexample :
  let people := [:: alice; bob] in
  let teamSizes := [:: 3%Z; (-1)%Z] in
  ~ ((exists e checked,
        optimizeTeams people teamSizes [::] defaultMaxResults = Threw e checked) <->
     [\/ foldl Z.add 0%Z teamSizes <> Z.of_nat (size people),
         has (fun z => (z <=? 0)%Z) teamSizes
       | teamSizes = [::] /\ people <> [::]]).
Proof.
move=> people teamSizes [_ raises].
have [|e [checked]] // := raises; by constructor 2.
Qed.

(** C6.  On valid input every returned assignment is a partition of the
    people: its teams together hold every person exactly once, and the team in
    slot [i] has [teamSizes[i]] members. *)
Theorem optimizeTeams_partition people teamSizes conflictMatrix maxResults :
  valid_input people teamSizes ->
  exists2 r,
    optimizeTeams people teamSizes conflictMatrix maxResults = Returned r &
    forall a, a \in bestAssignments r ->
      [/\ perm_eq (flatten [seq members t | t <- teams a]) people,
          uniq (flatten [seq members t | t <- teams a])
        & [seq Z.of_nat (size (members t)) | t <- teams a] = teamSizes].
Proof.
move=> valid; rewrite (optimizeTeams_valid _ _ valid); eexists; first by [].
move=> a /mem_slice0 /mem_take /mapP[p]; rewrite mem_filter => /andP[_].
case/and3P: (valid) => pos _ _; rewrite generatePartitions_positive //=.
case/(partitions_cover (valid_uniq valid) (valid_sum valid)) => perm_p sizes_p ->.
rewrite /= members_mkTeam; split=> //; first by rewrite (perm_uniq perm_p) (valid_uniq valid).
rewrite -map_comp (map_comp Z.of_nat size) -/(map size p) sizes_p -map_comp.
by apply: map_id_in => z /(allP pos) /Z.ltb_spec0 z_pos /=; rewrite Z2Nat.id; lia.
Qed.

Lemma optimizeTeams_partition_witness :
  exists2 r,
    optimizeTeams four [:: 2%Z; 2%Z] matrix_12 defaultMaxResults = Returned r &
    forall a, a \in bestAssignments r ->
      [/\ perm_eq (flatten [seq members t | t <- teams a]) four,
          uniq (flatten [seq members t | t <- teams a])
        & [seq Z.of_nat (size (members t)) | t <- teams a] = [:: 2%Z; 2%Z]].
Proof. by apply: optimizeTeams_partition. Defined.

(** C8.  On valid input with a positive [maxResults] the result holds the
    first [maxResults] of the partitions that tie at the least score, in the
    order of generation, and all of them when there are fewer; the later ties
    are dropped. *)
Theorem optimizeTeams_cap people teamSizes conflictMatrix maxResults :
  valid_input people teamSizes -> (0 < maxResults)%Z ->
  let generated := (generatePartitions people teamSizes None).1 in
  let tied := ties conflictMatrix generated in
  exists2 r,
    optimizeTeams people teamSizes conflictMatrix maxResults = Returned r &
    [/\ bestAssignments r =
          [seq to_assignment p (calculateConflictScore p conflictMatrix)
          | p <- take (Z.to_nat maxResults) tied],
        size (bestAssignments r) = minn (Z.to_nat maxResults) (size tied),
        (Z.of_nat (size (bestAssignments r)) <= maxResults)%Z
      & totalCombinationsChecked r = size generated].
Proof.
move=> valid k_pos generated tied.
rewrite (optimizeTeams_valid _ _ valid) slice0_take //; eexists; first by [].
rewrite /= -map_take; split=> //; first by rewrite size_map size_take_min.
rewrite size_map size_take_min -/generated -/tied.
by have /leP := geq_minl (Z.to_nat maxResults) (size tied); lia.
Qed.

(** Nine people, three teams of three, no recorded conflict: 280 partitions
    are generated and tie at 0, and the default cap keeps the first 10. *)
Lemma optimizeTeams_cap_witness :
  let generated := (generatePartitions nine [:: 3%Z; 3%Z; 3%Z] None).1 in
  exists2 r,
    optimizeTeams nine [:: 3%Z; 3%Z; 3%Z] [::] defaultMaxResults = Returned r &
    [/\ size (ties [::] generated) = 280, size (bestAssignments r) = 10
      & totalCombinationsChecked r = 280].
Proof.
have [] := @optimizeTeams_cap nine [:: 3%Z; 3%Z; 3%Z] [::] defaultMaxResults.
- by vm_compute.
- by [].
move=> r eq_r [_ sz _ checked] generated; exists r; first exact: eq_r.
split; [by vm_compute | rewrite sz | rewrite checked]; by vm_compute.
Defined.

(** ** Object identities do not matter *)

Section Relabel.

(** [f] replaces every object by another one with the same id. *)
Variable f : Person -> Person.
Hypothesis f_id : forall p, id (f p) = id p.

Let fP (p : seq (seq Person)) := [seq [seq f x | x <- team] | team <- p].
Let fG (g : gen (seq (seq Person))) : gen (seq (seq Person)) :=
  ([seq fP p | p <- g.1], g.2).

Local Notation relabel_assignment := (relabel_assignment f).
Local Notation relabel_outcome := (relabel_outcome f).
Local Notation relabel_search := (relabel_search f).

Lemma min_id_relabel init team :
  min_id init [seq f x | x <- team] = min_id init team.
Proof.
rewrite /min_id; elim: team init => [|x team IHteam] init //=.
by rewrite f_id IHteam.
Qed.

Lemma team_pairs_relabel m total team :
  team_pairs m total [seq f x | x <- team] = team_pairs m total team.
Proof.
elim: team total => [|x team IHteam] total //=; rewrite IHteam f_id.
by congr team_pairs; elim: team total {IHteam} => [|y team IHteam] total //=; rewrite IHteam f_id.
Qed.

Lemma calculateConflictScore_relabel p m :
  calculateConflictScore (fP p) m = calculateConflictScore p m.
Proof.
rewrite /calculateConflictScore; elim: p 0%Z => [|team p IHp] total //=.
by rewrite team_pairs_relabel IHp.
Qed.

Lemma combinations_map (A B : Type) (h : A -> B) (s : seq A) k :
  combinations [seq h x | x <- s] k = [seq [seq h x | x <- c] | c <- combinations s k].
Proof.
rewrite !combinations_masks size_map -map_comp.
by apply: eq_map => m /=; rewrite map_mask.
Qed.

Lemma gen_then_relabel g1 g2 : gen_then (fG g1) (fG g2) = fG (gen_then g1 g2).
Proof. by case: g1 g2 => [l1 [e1|]] [l2 e2] //; rewrite /gen_then /fG /= map_cat. Qed.

Lemma gen_each_relabel (A : eqType) (A' : Type) (h : A -> A') (xs : seq A)
    stop body body' :
  {in xs, forall x, body' (h x) = fG (body x)} ->
  gen_each [seq h x | x <- xs] (fG stop) body' = fG (gen_each xs stop body).
Proof.
elim: xs => [|x xs IHxs] //= body_ok.
rewrite body_ok ?mem_head // IHxs ?gen_then_relabel // => y y_in.
by apply: body_ok; rewrite inE y_in orbT.
Qed.

Lemma without_relabel people team :
  {in people &, injective f} -> {subset team <= people} ->
  without [seq f x | x <- people] [seq f x | x <- team] =
    [seq f x | x <- without people team].
Proof.
move=> f_inj sub; rewrite /without filter_map; congr map.
apply: eq_in_filter => p p_in /=; congr (~~ _).
apply/mapP/idP => [[q q_in /f_inj eq_pq]|]; last by exists p.
by rewrite eq_pq // sub.
Qed.

Lemma generatePartitions_relabel people teamSizes lastMinId :
  {in people &, injective f} ->
  generatePartitions [seq f x | x <- people] teamSizes lastMinId =
    fG (generatePartitions people teamSizes lastMinId).
Proof.
elim: teamSizes people lastMinId => [|z zs IHzs] people lastMinId f_inj //=.
rewrite /gen_for /combinationsZ; case: (z <? 0)%Z => //=.
rewrite combinations_map.
apply: (@gen_each_relabel _ _ _ _ gen_return) => team team_in.
case: team team_in => [|person0 team] team_in //.
rewrite /= -![f person0 :: _]/(map f (person0 :: team)).
rewrite -/(without _ _) -/(without people _) !min_id_relabel f_id.
case: (if lastMinId is Some _ then _ else _) => //.
have sub : {subset person0 :: team <= people}.
  exact/mem_subseq/(combinations_subseq team_in).
have inj' : {in without people (person0 :: team) &, injective f}.
  by move=> x y; rewrite !mem_filter => /andP[_ x_in] /andP[_ y_in]; apply: f_inj.
rewrite without_relabel // (IHzs _ _ inj').
set g := generatePartitions _ _ _.
have stop_ok : (if (fG g).2 is Some e then gen_throw e else gen_return) =
          fG (if g.2 is Some e then gen_throw e else gen_return).
  by rewrite /fG /=; case: (g.2).
rewrite {1}stop_ok.
have yield_ok : {in g.1, forall others,
    gen_yield ([seq f x | x <- person0 :: team] :: fP others) =
    fG (gen_yield ((person0 :: team) :: others))} by [].
exact: (@gen_each_relabel _ _ fP g.1 _
          (fun others => gen_yield ((person0 :: team) :: others))
          (fun others => gen_yield ([seq f x | x <- person0 :: team] :: others))
          yield_ok).
Qed.

Lemma visit_relabel m k st p :
  visit m k (relabel_search st) (fP p) = relabel_search (visit m k st p).
Proof.
rewrite /visit /= calculateConflictScore_relabel size_map.
have assign_ok s : to_assignment (fP p) s = relabel_assignment (to_assignment p s).
  by rewrite /to_assignment /relabel_assignment /= /fP -!map_comp.
case: (if minScore st is Some _ then _ else _); first by rewrite assign_ok.
by case: (_ && _) => //; rewrite /relabel_search /= map_rcons assign_ok.
Qed.

Lemma optimizeTeams_relabel people teamSizes m k :
  {in people &, injective f} ->
  optimizeTeams [seq f x | x <- people] teamSizes m k =
    relabel_outcome (optimizeTeams people teamSizes m k).
Proof.
move=> f_inj; rewrite /optimizeTeams size_map; case: (_ != _) => //.
rewrite generatePartitions_relabel //=; set g := generatePartitions _ _ _.
have -> : foldl (visit m k) search0 [seq fP p | p <- g.1] =
          relabel_search (foldl (visit m k) search0 g.1).
  rewrite -[search0 in LHS]/(relabel_search search0).
  elim: g.1 search0 => [|p ps IHps] st //=.
  by rewrite visit_relabel IHps.
case: g.2 => //=; congr (Returned (mkResult _ _)).
by rewrite /slice0 size_map; case: (k <? 0)%Z; rewrite map_take.
Qed.

Lemma outcome_content_relabel o :
  (forall p, name (f p) = name p) ->
  outcome_content (relabel_outcome o) = outcome_content o.
Proof.
move=> f_name; case: o => [[assignments checked]|e checked] //=.
congr (inl (_, _)); rewrite -map_comp; apply: eq_map => a /=.
congr (_, _); rewrite -map_comp; apply: eq_map => t /=.
by rewrite -map_comp; apply: eq_map => p; rewrite /content /= f_id f_name.
Qed.

End Relabel.

Section SameContent.

Variables people1 people2 : seq Person.
Hypothesis same : [seq content p | p <- people1] = [seq content p | p <- people2].

Local Notation counterpart := (counterpart people1 people2).

Lemma size_same : size people1 = size people2.
Proof. by rewrite -(size_map content people1) same size_map. Qed.

Lemma counterpart_content p : content (counterpart p) = content p.
Proof.
rewrite /counterpart; case: (boolP (p \in people1)) => [p_in|p_notin]; last first.
  by rewrite nth_default // -size_same leqNgt index_mem.
have lt_i : seq.index p people1 < size people2 by rewrite -size_same index_mem.
rewrite -(@nth_map _ p _ (content p) content) // -same.
by rewrite (@nth_map _ p _ (content p) content) ?index_mem // nth_index.
Qed.

Lemma counterpart_id p : id (counterpart p) = id p.
Proof. by have [] := counterpart_content p. Qed.

Lemma counterpart_name p : name (counterpart p) = name p.
Proof. by have [] := counterpart_content p. Qed.

Lemma counterpart_inj : uniq people2 -> {in people1 &, injective counterpart}.
Proof.
move=> uniq2 p q p_in q_in /eqP; rewrite /counterpart.
rewrite (set_nth_default q) -?size_same ?index_mem // nth_uniq -?size_same ?index_mem //.
by move/eqP=> eq_i; rewrite -(nth_index p p_in) eq_i nth_index.
Qed.

Lemma map_counterpart : uniq people1 -> [seq counterpart p | p <- people1] = people2.
Proof.
move=> uniq1; pose p0 := mkPerson 0 EmptyString EmptyString.
apply: (@eq_from_nth _ p0); rewrite size_map ?size_same // => i lt_i.
rewrite (nth_map p0) ?size_same // /counterpart index_uniq ?size_same //.
exact: set_nth_default.
Qed.

End SameContent.

(** C9.  Two calls on the same people, sizes, matrix and cap end the same way:
    the same assignments in the same order and the same count, or the same
    exception.  The people of the two calls hold the same ids and names in the
    same order; they are the same array, or arrays of separate objects. *)
Theorem optimizeTeams_deterministic people1 people2 teamSizes conflictMatrix
    maxResults :
  [seq content p | p <- people1] = [seq content p | p <- people2] ->
  people1 = people2 \/ uniq people1 /\ uniq people2 ->
  outcome_content (optimizeTeams people1 teamSizes conflictMatrix maxResults) =
  outcome_content (optimizeTeams people2 teamSizes conflictMatrix maxResults).
Proof.
move=> same [->|[uniq1 uniq2]] //.
rewrite -(map_counterpart same uniq1).
rewrite (optimizeTeams_relabel (counterpart_id same) _ _ _ (counterpart_inj same uniq2)).
apply/esym/outcome_content_relabel; first exact: counterpart_id.
exact: counterpart_name.
Qed.

Lemma optimizeTeams_deterministic_witness :
  outcome_content (optimizeTeams four [:: 2%Z; 2%Z] matrix_12 defaultMaxResults) =
  outcome_content (optimizeTeams four_again [:: 2%Z; 2%Z] matrix_12 defaultMaxResults).
Proof. by apply: optimizeTeams_deterministic; [|right]. Defined.

(** ** Counting the canonical partitions *)

Lemma str_le_trans (b a c : string) : str_le a b -> str_le b c -> str_le a c.
Proof.
move=> ab; rewrite [str_le b c]str_leNgt => ncb; rewrite str_leNgt.
by apply: contra ncb => ca; apply: str_lt_le_trans ab.
Qed.

Lemma str_le_anti (a b : string) : str_le a b -> str_le b a -> a = b.
Proof.
rewrite !str_leNgt => nba nab; apply/eqP; apply: contraTT nab => /str_lt_total.
by rewrite (negbTE nba) orbF negbK.
Qed.

Lemma min_id_le init team : str_le (min_id init team) init.
Proof.
rewrite /min_id; elim: team init => [|x team IHteam] init /=.
  exact: str_le_refl.
apply: str_le_trans (IHteam _) _.
by case: ifP => [/str_ltW|_] //; apply: str_le_refl.
Qed.

Lemma min_id_lb init team p : p \in team -> str_le (min_id init team) (id p).
Proof.
rewrite /min_id; elim: team init => [|x team IHteam] init //=.
rewrite inE => /orP[/eqP ->|/IHteam]; last exact.
apply: str_le_trans (min_id_le _ _) _.
by case: ifP => [_|/negbT]; rewrite ?str_le_refl // str_leNgt.
Qed.

Lemma min_id_mem init team : min_id init team \in init :: [seq id p | p <- team].
Proof.
rewrite /min_id; elim: team init => [|x team IHteam] init /=.
  by rewrite mem_head.
have := IHteam (if str_lt (id x) init then id x else init).
rewrite !inE => /orP[/eqP ->|->]; last by rewrite !orbT.
by case: ifP; rewrite eqxx ?orbT.
Qed.

Lemma team_min_mem team : team != [::] -> team_min team \in [seq id p | p <- team].
Proof.
case: team => [|person0 team] // _.
have := min_id_mem (id person0) (person0 :: team).
by rewrite inE => /orP[/eqP|//]; rewrite /team_min => ->; rewrite mem_head.
Qed.

Lemma team_min_lb team p : p \in team -> str_le (team_min team) (id p).
Proof. by case: team => [|person0 team] // p_in; apply: min_id_lb. Qed.

Lemma aboveE last m : above (Some last) m = str_lt last m.
Proof. by rewrite /above str_leNgt negbK. Qed.

Lemma above_le lastMinId m m' : above lastMinId m -> str_le m m' -> above lastMinId m'.
Proof.
by case: lastMinId => [last|] //; rewrite !aboveE; apply: str_lt_le_trans.
Qed.

(** The test on the least id of a team is a test on all its members. *)
Lemma above_team_min lastMinId team :
  team != [::] ->
  above lastMinId (team_min team) = all (fun p => above lastMinId (id p)) team.
Proof.
move=> team_n0; apply/idP/allP => [ok p /team_min_lb|ok]; first exact: above_le.
by have /mapP[p p_in ->] := team_min_mem team_n0; apply: ok.
Qed.

(** Selecting the combinations whose members all pass a test is the same as
    combining the members that pass. *)
Lemma filter_combinations (T : Type) (a : pred T) (s : seq T) k :
  [seq c <- combinations s k | all a c] = combinations [seq x <- s | a x] k.
Proof.
elim: s k => [|x s IHs] [|k] //=.
rewrite combinations_cons filter_cat filter_map IHs /=.
case ax: (a x).
  rewrite combinations_cons (@eq_filter _ _ (all a)) ?IHs // => c.
  by rewrite /= ax.
rewrite -[RHS]cat0s (@eq_filter _ _ pred0) ?filter_pred0 // => c.
by rewrite /= ax.
Qed.

Lemma eligible_None people : eligible None people = size people.
Proof. exact: count_predT. Qed.

Lemma combination_n0 people s (team : seq Person) :
  0 < s -> team \in combinations people s -> team != [::].
Proof. by move=> s_pos /combinations_size sz; rewrite -size_eq0 sz -lt0n. Qed.

Lemma team_min_person people s team :
  0 < s -> team \in combinations people s ->
  exists p, [/\ p \in team, p \in people & team_min team = id p].
Proof.
move=> s_pos team_in; have /team_min_mem/mapP[p p_in ->] := combination_n0 s_pos team_in.
by exists p; split=> //; apply: (mem_subseq (combinations_subseq team_in)).
Qed.

Lemma count_above people s lastMinId :
  0 < s ->
  count (fun team => above lastMinId (team_min team)) (combinations people s) =
    'C(eligible lastMinId people, s).
Proof.
move=> s_pos; rewrite -size_filter.
have all_above : {in combinations people s,
    (fun team => above lastMinId (team_min team))
    =1 all (fun p => above lastMinId (id p))}.
  by move=> team /(combination_n0 s_pos) /above_team_min ->.
by rewrite (eq_in_filter all_above) filter_combinations size_combinations size_filter.
Qed.

Lemma least_exists lastMinId people :
  0 < eligible lastMinId people -> exists p0, least_above lastMinId people p0.
Proof.
rewrite /eligible -size_filter; set E := filter _ _ => E_pos.
have E_n0 : E != [::] by rewrite -size_eq0 -lt0n.
have /mapP[p0] := team_min_mem E_n0; rewrite mem_filter => /andP[ok p0_in] eq_p0.
exists p0; split=> // p p_in p_ok; rewrite -eq_p0; apply: team_min_lb.
by rewrite mem_filter p_ok.
Qed.

Lemma above_split lastMinId people p0 p :
  least_above lastMinId people p0 -> p \in people ->
  above lastMinId (id p) = (id p == id p0) || above (Some (id p0)) (id p).
Proof.
case=> p0_in p0_ok least p_in; rewrite aboveE; apply/idP/orP => [p_ok|].
  have := least p p_in p_ok; rewrite str_leNgt => nlt.
  have [->|/str_lt_total] := eqVneq (id p) (id p0); first by left.
  by rewrite (negbTE nlt) => lt; right.
by case=> [/eqP ->|/str_ltW] //; apply: above_le.
Qed.

Lemma above_excl (m m0 : string) : (m == m0) && above (Some m0) m = false.
Proof. by rewrite aboveE; case: eqP => // ->; rewrite str_lt_irrefl. Qed.

Lemma eligible_least lastMinId people p0 :
  uniq [seq id p | p <- people] -> least_above lastMinId people p0 ->
  eligible lastMinId people = (eligible (Some (id p0)) people).+1.
Proof.
move=> uniq_ids least; have [p0_in _ _] := least.
have split_p : {in people, (fun p => above lastMinId (id p))
    =1 predU (fun p => id p == id p0) (fun p => above (Some (id p0)) (id p))}.
  by move=> p /(above_split least).
rewrite /eligible (eq_in_count split_p).
have := count_predUI (fun p => id p == id p0)
          (fun p => above (Some (id p0)) (id p)) people.
have excl : predI (fun p => id p == id p0)
                  (fun p => above (Some (id p0)) (id p)) =1 pred0.
  by move=> p /=; rewrite above_excl.
rewrite (eq_count excl) count_pred0 addn0 => ->.
have -> : count (fun p => id p == id p0) people = 1; last by rewrite add1n.
rewrite -(count_map id (pred1 (id p0))) count_uniq_mem //.
by rewrite map_f.
Qed.

Lemma eligible_without people team :
  uniq [seq id p | p <- people] -> team != [::] -> subseq team people ->
  eligible (Some (team_min team)) (without people team) =
    eligible (Some (team_min team)) people - (size team).-1.
Proof.
move=> uniq_ids team_n0 sub; have uniq_people := map_uniq uniq_ids.
have /permP/(_ (fun p => above (Some (team_min team)) (id p))) :=
  perm_without uniq_people sub.
rewrite /eligible => <-.
rewrite count_cat -/(eligible _ team) -/(eligible _ (without people team)).
have /mapP[p0 p0_in eq_p0] := team_min_mem team_n0.
have least : least_above None team p0.
  by split=> // p p_in _; rewrite -eq_p0; apply: team_min_lb.
have uniq_team : uniq [seq id p | p <- team].
  exact: subseq_uniq (map_subseq id sub) uniq_ids.
have := eligible_least uniq_team least; rewrite eligible_None -eq_p0 => ->.
by rewrite /= addKn.
Qed.

Lemma count_team_min people s lastMinId p0 :
  uniq [seq id p | p <- people] -> 0 < s -> least_above lastMinId people p0 ->
  count (fun team => team_min team == id p0) (combinations people s) =
    'C(eligible (Some (id p0)) people, s.-1).
Proof.
move=> uniq_ids; case: s => // s s_pos least.
have split_t : {in combinations people s.+1,
    (fun team => above lastMinId (team_min team))
    =1 predU (fun team => team_min team == id p0)
             (fun team => above (Some (id p0)) (team_min team))}.
  move=> team team_in; have [p [_ p_in eq_p]] := team_min_person s_pos team_in.
  by rewrite /= eq_p (above_split least p_in).
have excl : predI (fun team => team_min team == id p0)
                  (fun team => above (Some (id p0)) (team_min team)) =1 pred0.
  by move=> team /=; rewrite above_excl.
have := count_above people lastMinId s_pos.
rewrite (eq_in_count split_t) (eligible_least uniq_ids least).
have := count_predUI (fun team => team_min team == id p0)
          (fun team => above (Some (id p0)) (team_min team)) (combinations people s.+1).
rewrite (eq_count excl) count_pred0 addn0 => ->.
rewrite (count_above people (Some (id p0)) s_pos).
by rewrite binS addnC => /addnI.
Qed.

(** The sum over the teams that pass the threshold, grouped by the rank of
    their least id among the eligible people. *)
Lemma sum_over_teams people s lastMinId (H : nat -> nat) :
  uniq [seq id p | p <- people] -> 0 < s ->
  \sum_(team <- combinations people s | above lastMinId (team_min team))
     H (eligible (Some (team_min team)) people)
  = \sum_(0 <= i < eligible lastMinId people) 'C(i, s.-1) * H i.
Proof.
move=> uniq_ids s_pos.
have [q eq_q] : exists q, eligible lastMinId people = q by eexists.
rewrite eq_q; elim: q lastMinId eq_q => [|q IHq] lastMinId eq_q.
  rewrite (big_geq (leqnn 0)) big_seq_cond big_pred0 // => team.
  apply/negP => /andP[team_in ok].
  have [p [_ p_in eq_p]] := team_min_person s_pos team_in.
  suff: 0 < eligible lastMinId people by rewrite eq_q.
  by rewrite /eligible -has_count; apply/hasP; exists p; rewrite // -eq_p.
have [p0 least] : exists p0, least_above lastMinId people p0.
  by apply: least_exists; rewrite eq_q.
have eq_q' : eligible (Some (id p0)) people = q.
  by have := eligible_least uniq_ids least; rewrite eq_q => -[].
rewrite big_nat_recr //= -(IHq _ eq_q').
rewrite (bigID (fun team => team_min team == id p0)) /= addnC; congr (_ + _).
  rewrite big_seq_cond [RHS]big_seq_cond; apply: eq_bigl => team.
  case team_in: (team \in _) => //=.
  have [p [_ p_in ->]] := team_min_person s_pos team_in.
  rewrite (above_split least p_in); case: eqP => [->|_] /=; last by rewrite andbT.
  by rewrite str_le_refl.
rewrite -{1}eq_q' -(count_team_min uniq_ids s_pos least).
rewrite mulnC -iter_addn_0 -big_const_seq big_seq_cond [RHS]big_seq_cond.
apply: eq_big => [team|team /andP[_ /andP[_ /eqP ->]]]; last by rewrite eq_q'.
case team_in: (team \in _) => //=.
have [p [_ p_in ->]] := team_min_person s_pos team_in.
by rewrite (above_split least p_in); case: eqP => _ /=; rewrite ?andbF.
Qed.

Lemma size_partitions people sizes lastMinId :
  uniq [seq id p | p <- people] -> all (leq 1) sizes ->
  sumn sizes = size people ->
  size (partitions people sizes lastMinId) =
    canonical_count (eligible lastMinId people) sizes.
Proof.
elim: sizes people lastMinId => [|s rest IHrest] people lastMinId //.
move=> uniq_ids /= /andP[s_pos rest_pos] sum_sizes.
have uniq_people := map_uniq uniq_ids.
rewrite size_flatten /shape -map_comp sumnE big_map big_filter.
pose next team := if same_next s rest then Some (team_min team) else None.
have size_team team : team \in combinations people s ->
    size (partitions (without people team) rest (next team)) =
      canonical_count (eligible (next team) (without people team)) rest.
  move=> team_in; have sub := combinations_subseq team_in.
  apply: IHrest => //; first exact: subseq_uniq (map_subseq id (filter_subseq _ _)) uniq_ids.
  by rewrite size_without // (combinations_size team_in) -sum_sizes addKn.
rewrite big_seq_cond.
under eq_bigr => team /andP[team_in _] do rewrite /= size_map (size_team team team_in).
rewrite -big_seq_cond /next; case: (same_next s rest).
  rewrite -(sum_over_teams _ _ uniq_ids s_pos) big_seq_cond [RHS]big_seq_cond.
  apply: eq_bigr => team /andP[team_in _].
  rewrite eligible_without ?(combinations_size team_in) //.
    exact: combination_n0 team_in.
  exact: combinations_subseq team_in.
rewrite big_seq_cond.
under eq_bigr => team /andP[team_in _].
  rewrite eligible_None size_without ?(combinations_subseq team_in) //.
  rewrite (combinations_size team_in) -sum_sizes addKn; over.
by rewrite -big_seq_cond big_const_seq iter_addn_0 mulnC count_above.
Qed.

(** *** The closed form *)

Lemma bin_trinomial a n q : 'C(q, a) * 'C(q - a, n) = 'C(n + a, a) * 'C(q, n + a).
Proof.
case: (leqP (n + a) q) => [le_q|lt_q]; last first.
  rewrite [in RHS](bin_small lt_q) muln0.
  case: (leqP a q) => [le_a|lt_a]; last by rewrite (bin_small lt_a).
  have lt_n : q - a < n by rewrite ltn_subLR // addnC.
  by rewrite (bin_small lt_n) muln0.
have le_a : a <= q := leq_trans (leq_addl n a) le_q.
have le_n : n <= q - a by rewrite (leq_subRL _ le_a) addnC.
have pos : 0 < a`! * (n`! * (q - a - n)`!) by rewrite !muln_gt0 !fact_gt0.
apply/eqP; rewrite -(eqn_pmul2r pos); apply/eqP.
have l1 := bin_fact le_a; have l2 := bin_fact le_n.
have r1 := bin_fact (leq_addl n a); have r2 := bin_fact le_q.
rewrite addnK in r1; rewrite -subnDA [a + n]addnC in l2 *.
move: l1 l2 r1 r2; rewrite -!multE; nia.
Qed.

Lemma hockey_stick a n q :
  \sum_(0 <= i < q) 'C(i, a) * 'C(i - a, n) = 'C(n + a, a) * 'C(q, (n + a).+1).
Proof.
elim: q => [|q IHq]; first by rewrite big_geq // bin0n muln0.
by rewrite big_nat_recr //= IHq binS mulnDr bin_trinomial.
Qed.

Lemma same_nextP s rest : same_next s rest -> exists rest2, rest = s :: rest2.
Proof. by case: rest => [|s' rest2] //= /eqP ->; exists rest2. Qed.

Lemma run_lengths_same s rest :
  same_next s rest ->
  exists r rs, run_lengths rest = r :: rs /\ run_lengths (s :: rest) = r.+1 :: rs.
Proof.
move=> same; rewrite /= same; have [rest2 ->] := same_nextP same.
rewrite /=; case: (same_next s rest2); last by exists 1, (run_lengths rest2).
by case: (run_lengths rest2) => [|r rs]; [exists 1, [::] | exists r.+1, rs].
Qed.

Lemma run_head_le sizes :
  head 0 (run_lengths sizes) * head 0 sizes <= sumn sizes.
Proof.
elim: sizes => [|s rest IHrest] //; case same: (same_next s rest); last first.
  by rewrite /= same /= mul1n leq_addr.
have [r [rs [eq_rest ->]]] := run_lengths_same same.
have [rest2 eq_rest2] := same_nextP same.
by move: IHrest; rewrite eq_rest eq_rest2 /= mulSn leq_add2l.
Qed.

Lemma canonical_count_fact q sizes :
  all (leq 1) sizes ->
  canonical_count q sizes * (\prod_(x <- sizes) x`!)
    * (\prod_(r <- run_lengths sizes) r`!)
  = 'C(q, head 0 (run_lengths sizes) * head 0 sizes)
    * ((head 0 (run_lengths sizes) * head 0 sizes)`!
       * (sumn sizes - head 0 (run_lengths sizes) * head 0 sizes)`!).
Proof.
elim: sizes q => [|s rest IHrest] q pos; first by rewrite /= !big_nil bin0.
have /andP[s_pos rest_pos] : (0 < s) && all (leq 1) rest by [].
have full : canonical_count (sumn rest) rest * (\prod_(x <- rest) x`!)
              * (\prod_(r <- run_lengths rest) r`!) = (sumn rest)`!.
  by rewrite IHrest // bin_fact // run_head_le.
rewrite [canonical_count _ _]/= big_cons; case same: (same_next s rest); last first.
  rewrite [run_lengths _]/= same big_cons /= !mul1n addKn -full.
  by rewrite -!multE; lia.
have [r [rs [eq_rest eq_sizes]]] := run_lengths_same same.
have [rest2 eq_rest2] := same_nextP same.
rewrite eq_sizes big_cons [head _ _]/= [head 0 (s :: rest)]/=.
have IH i : canonical_count i rest * (\prod_(x <- rest) x`!) * (r`! * \prod_(j <- rs) j`!)
            = 'C(i, r * s) * ((r * s)`! * (sumn rest - r * s)`!).
  by have := IHrest i rest_pos; rewrite eq_rest big_cons eq_rest2.
set A := \prod_(x <- rest) _ in IH *; set P := \prod_(j <- rs) _ in IH *.
set R := (sumn rest - r * s)`! in IH.
have -> : sumn (s :: rest) - r.+1 * s = sumn rest - r * s.
  by rewrite /= mulSn subnDl.
rewrite -/R !big_distrl /=.
have term i :
    'C(i, s.-1) * canonical_count (i - s.-1) rest * (s`! * A) * (r.+1`! * P)
    = 'C(i, s.-1) * 'C(i - s.-1, r * s) * ((r * s)`! * R * (s`! * r.+1)).
  have -> : 'C(i, s.-1) * canonical_count (i - s.-1) rest * (s`! * A) * (r.+1`! * P)
            = 'C(i, s.-1) * (canonical_count (i - s.-1) rest * A * (r`! * P))
              * (s`! * r.+1).
    by rewrite factS -!multE; lia.
  by rewrite IH -!multE; lia.
rewrite (eq_bigr _ (fun i _ => term i)) -big_distrl hockey_stick /=.
have eq_N : (r * s + s.-1).+1 = r.+1 * s by rewrite -addnS prednK // mulSn addnC.
rewrite eq_N.
have := bin_fact (leq_addl (r * s) s.-1); rewrite addnK.
have : (r.+1 * s)`! = r.+1 * s * (r * s + s.-1)`! by rewrite -eq_N factS.
have : s`! = s * (s.-1)`! by rewrite -{1 2}(prednK s_pos) factS.
by move=> -> -> <-; rewrite -!multE; lia.
Qed.

Lemma prod_fact_gt0 (sizes : seq nat) : 0 < \prod_(s <- sizes) s`!.
Proof. by apply: prodn_gt0 => s; apply: fact_gt0. Qed.

Lemma canonical_count_total sizes :
  all (leq 1) sizes ->
  canonical_count (sumn sizes) sizes * (\prod_(s <- sizes) s`!)
    * runs_factorial sizes = (sumn sizes)`!.
Proof.
by move=> pos; rewrite /runs_factorial canonical_count_fact // bin_fact // run_head_le.
Qed.

Lemma canonical_count_formula sizes :
  all (leq 1) sizes ->
  canonical_count (sumn sizes) sizes =
    multinomial (sumn sizes) sizes %/ runs_factorial sizes.
Proof.
move=> pos; rewrite /multinomial -(canonical_count_total pos) mulnAC.
by rewrite (mulnK _ (prod_fact_gt0 _)) /runs_factorial (mulnK _ (prod_fact_gt0 _)).
Qed.

Lemma canonical_count_gt0 sizes :
  all (leq 1) sizes -> 0 < canonical_count (sumn sizes) sizes.
Proof.
move=> /canonical_count_total eq_fact; have := fact_gt0 (sumn sizes).
by rewrite -eq_fact !muln_gt0 => /andP[/andP[]].
Qed.

Lemma run_lengths_nseq n s : runs_factorial (nseq n s) = n`!.
Proof.
rewrite /runs_factorial; case: n => [|n]; first by rewrite big_nil.
suff -> : run_lengths (nseq n.+1 s) = [:: n.+1] by rewrite big_cons big_nil muln1.
elim: n => [|n IHn] //.
rewrite -[nseq n.+2 s]/(s :: nseq n.+1 s) [LHS]/= eqxx.
by move: IHn => /= ->.
Qed.

Lemma prod_fact_nseq n s : \prod_(x <- nseq n s) x`! = s`! ^ n.
Proof. by rewrite big_nseq /= iter_muln_1. Qed.

Lemma valid_positive people teamSizes :
  valid_input people teamSizes -> all (leq 1) [seq Z.to_nat z | z <- teamSizes].
Proof.
case/and3P=> pos _ _; rewrite all_map; apply: sub_all pos => z /Z.ltb_spec0 z_pos.
by apply/ltP => /=; lia.
Qed.

Lemma valid_count people teamSizes :
  valid_input people teamSizes ->
  size (generatePartitions people teamSizes None).1 =
    canonical_count (size people) [seq Z.to_nat z | z <- teamSizes].
Proof.
move=> valid; case/and3P: (valid) => pos _ uniq_ids.
rewrite generatePartitions_positive //= size_partitions ?eligible_None //.
  exact: valid_positive valid.
exact: valid_sum valid.
Qed.

(** C5.  On valid input the number of partitions generated, which is the
    count returned, is the multinomial coefficient of the number of people
    over the sizes, divided by the product of the factorials of the lengths of
    the maximal runs of adjacent equal sizes; for [n] teams of one size [s] it
    is [(n * s)! / (s!^n * n!)]. *)
Theorem optimizeTeams_count people teamSizes conflictMatrix maxResults :
  valid_input people teamSizes ->
  let sizes := [seq Z.to_nat z | z <- teamSizes] in
  exists2 r,
    optimizeTeams people teamSizes conflictMatrix maxResults = Returned r &
    [/\ totalCombinationsChecked r =
          size (generatePartitions people teamSizes None).1,
        totalCombinationsChecked r =
          multinomial (size people) sizes %/ runs_factorial sizes
      & forall n s, sizes = nseq n s ->
          size people = n * s /\
          totalCombinationsChecked r = (n * s)`! %/ (s`! ^ n * n`!)].
Proof.
move=> valid sizes; rewrite (optimizeTeams_valid _ _ valid); eexists; first by [].
have pos := valid_positive valid; have sum_sizes := valid_sum valid.
rewrite /= valid_count // -/sizes -sum_sizes -/sizes; split=> //.
  exact: canonical_count_formula.
move=> n s eq_sizes; have := canonical_count_total pos.
rewrite -/sizes !eq_sizes !sumn_nseq ![s * n]mulnC prod_fact_nseq run_lengths_nseq.
by move=> <-; rewrite -mulnA mulnK // muln_gt0 expn_gt0 !fact_gt0.
Qed.

Lemma optimizeTeams_count_witness :
  exists2 r,
    optimizeTeams nine [:: 3%Z; 3%Z; 3%Z] [::] defaultMaxResults = Returned r &
    totalCombinationsChecked r = 9`! %/ (3`! ^ 3 * 3`!)
    /\ 9`! %/ (3`! ^ 3 * 3`!) = 280.
Proof.
have [|r eq_r [_ _ run]] :=
  @optimizeTeams_count nine [:: 3%Z; 3%Z; 3%Z] [::] defaultMaxResults.
  by vm_compute.
exists r; first exact: eq_r.
by have [_ ->] := run 3 3 (erefl _); split; last by vm_compute.
Defined.




(** * Further properties of the code *)

(** ** The generators and the driver on any input *)

(** X1.  [combinations(S, k)] yields a sequence exactly when it is a
    subsequence of [S] with [k] elements: no selection of [k] of the elements
    in their order is left out, and nothing else is yielded. *)
Theorem combinations_complete (T : eqType) (S c : seq T) (k : nat) :
  (c \in combinations S k) = subseq c S && (size c == k).
Proof. exact: mem_combinations. Qed.

(** X2.  The score does not depend on the order of the teams, whatever the
    matrix. *)
Theorem score_ignores_team_order (teams1 teams2 : seq (seq Person))
    (conflictMatrix : ConflictMatrix) :
  perm_eq teams1 teams2 ->
  calculateConflictScore teams1 conflictMatrix =
  calculateConflictScore teams2 conflictMatrix.
Proof. exact: calculateConflictScore_perm_teams. Qed.

Lemma score_ignores_team_order_witness :
  calculateConflictScore [:: [:: alice; bob]; [:: person 2 "3"]] matrix_21 =
  calculateConflictScore [:: [:: person 2 "3"]; [:: alice; bob]] matrix_21.
Proof. by apply: score_ignores_team_order. Defined.

Lemma matrix_both_symmetric : symmetric matrix_both.
Proof.
move=> a b; rewrite /entry /=.
by do ![case: eqP => ? //=; subst].
Qed.

(** X3.  On a matrix that holds the same count in both directions of every
    pair the score does not depend on the order of the members of a team. *)
Theorem score_ignores_member_order (teams1 teams2 : seq (seq Person))
    (conflictMatrix : ConflictMatrix) :
  symmetric conflictMatrix ->
  size teams1 = size teams2 ->
  (forall i, perm_eq (nth [::] teams1 i) (nth [::] teams2 i)) ->
  calculateConflictScore teams1 conflictMatrix =
  calculateConflictScore teams2 conflictMatrix.
Proof. by move=> sym sz perm; apply: calculateConflictScore_perm_members. Qed.

Lemma score_ignores_member_order_witness :
  calculateConflictScore [:: [:: alice; bob]] matrix_both =
  calculateConflictScore [:: [:: bob; alice]] matrix_both.
Proof.
apply: score_ignores_member_order => //; first exact: matrix_both_symmetric.
by case=> [|[|i]].
Defined.

Lemma gen_each_silent (A B : Type) (xs : seq A) (stop : gen B) body :
  stop.1 = [::] -> (forall x, (body x).1 = [::]) ->
  (gen_each xs stop body).1 = [::].
Proof.
move=> stop_nil body_nil; elim: xs => [|x xs IHxs] //=.
by rewrite /gen_then; case: (body x).2; rewrite /= body_nil ?IHxs.
Qed.

Lemma generatePartitions_nonpositive people teamSizes lastMinId :
  has (fun z => (z <=? 0)%Z) teamSizes ->
  (generatePartitions people teamSizes lastMinId).1 = [::].
Proof.
elim: teamSizes people lastMinId => [|z zs IHzs] people lastMinId //=.
rewrite /gen_for /combinationsZ; case: Z.ltb_spec0 => [//|not_neg].
case: Z.leb_spec0 => [le0 _|_ /= nonpos].
  by have ->: z = 0%Z by lia.
apply: gen_each_silent => // -[|person0 team] //.
case: (if lastMinId is Some _ then _ else _) => //.
by rewrite IHzs //=; case: (_.2).
Qed.

(** X4.  A team size that is not positive is not rejected, but no partition
    is ever generated with it: the call either throws from inside the search
    with nothing counted, or returns no assignment and the count 0. *)
Theorem optimizeTeams_nonpositive_size people teamSizes conflictMatrix maxResults :
  has (fun z => (z <=? 0)%Z) teamSizes ->
  match optimizeTeams people teamSizes conflictMatrix maxResults with
  | Returned r => r = mkResult [::] 0
  | Threw _ checked => checked = 0
  end.
Proof.
move=> nonpos; rewrite /optimizeTeams; case: (_ != _) => //=.
rewrite generatePartitions_nonpositive //=; case: (_.2) => //.
by rewrite /slice0; case: (_ <? _)%Z.
Qed.

Lemma optimizeTeams_nonpositive_size_witness :
  match optimizeTeams [:: alice; bob] [:: 3%Z; (-1)%Z] [::] defaultMaxResults with
  | Returned r => r = mkResult [::] 0
  | Threw _ checked => checked = 0
  end.
Proof.
exact: (@optimizeTeams_nonpositive_size [:: alice; bob] [:: 3%Z; (-1)%Z] [::]
          defaultMaxResults (erefl true)).
Defined.

(** Whenever the call returns, the result is read off the generated list:
    the first [maxResults] ties, none for a cap that is not positive. *)
Lemma optimizeTeams_returned people teamSizes conflictMatrix maxResults r :
  optimizeTeams people teamSizes conflictMatrix maxResults = Returned r ->
  let generated := (generatePartitions people teamSizes None).1 in
  r = mkResult
        [seq to_assignment p (calculateConflictScore p conflictMatrix)
        | p <- take (Z.to_nat maxResults) (ties conflictMatrix generated)]
        (size generated).
Proof.
rewrite /optimizeTeams; case: (_ != _) => //; case: (_.2) => // -[<-] /=.
rewrite search_loop /= map_take; congr mkResult.
set old := [seq _ | p <- _]; rewrite /slice0; case: Z.ltb_spec0 => [neg|not_neg].
  have -> : Z.to_nat maxResults = 0 by lia.
  have -> : Z.to_nat (Z.max 1 maxResults) = 1 by lia.
  rewrite take0; have le1 : size (take 1 old) <= 1 by rewrite size_take_min geq_minl.
  have -> : Z.to_nat (Z.of_nat (size (take 1 old)) + maxResults) = 0.
    by move/leP: le1; lia.
  by rewrite take0.
rewrite take_takel //; apply/leP; lia.
Qed.

(** X5.  On any input on which the call returns, and for any cap, the result
    holds the first [maxResults] of the generated partitions that tie at the
    least score; with a cap that is not positive the search still runs and
    reports its count, and no assignment is returned. *)
Theorem optimizeTeams_cap_any people teamSizes conflictMatrix maxResults r :
  optimizeTeams people teamSizes conflictMatrix maxResults = Returned r ->
  let generated := (generatePartitions people teamSizes None).1 in
  [/\ bestAssignments r =
        [seq to_assignment p (calculateConflictScore p conflictMatrix)
        | p <- take (Z.to_nat maxResults) (ties conflictMatrix generated)],
      totalCombinationsChecked r = size generated,
      size (bestAssignments r) <= Z.to_nat maxResults
    & (maxResults <= 0)%Z -> bestAssignments r = [::]].
Proof.
move=> /optimizeTeams_returned -> /=; split=> //.
  by rewrite size_map size_take_min geq_minl.
by move=> le0; have -> : Z.to_nat maxResults = 0 by [lia]; rewrite take0.
Qed.

Lemma optimizeTeams_cap_any_witness :
  bestAssignments (mkResult [::] 3) = [::] /\
  optimizeTeams four [:: 2%Z; 2%Z] matrix_12 0 = Returned (mkResult [::] 3).
Proof.
have eq_r : optimizeTeams four [:: 2%Z; 2%Z] matrix_12 0 = Returned (mkResult [::] 3).
  by vm_compute.
by have [_ _ _ ->] := optimizeTeams_cap_any eq_r.
Defined.

Lemma pair_sum_ge0 (m : ConflictMatrix) team :
  (forall a b, (0 <= entry m a b)%Z) -> (0 <= pair_sum m team)%Z.
Proof.
move=> m_ge0; elim: team => [|p team IHteam] //=.
suff: (0 <= \big[Z.add/0%Z]_(q <- team) entry m (id p) (id q))%Z by lia.
elim: team {IHteam} => [|q team IHteam]; first by rewrite big_nil.
by rewrite big_cons; have := m_ge0 (id p) (id q); lia.
Qed.

(** X6.  When no stored count is negative, no score is: every returned
    assignment has a score of at least 0. *)
Theorem optimizeTeams_score_ge0 people teamSizes conflictMatrix maxResults r :
  (forall a b, (0 <= entry conflictMatrix a b)%Z) ->
  optimizeTeams people teamSizes conflictMatrix maxResults = Returned r ->
  forall a, a \in bestAssignments r -> (0 <= conflictScore a)%Z.
Proof.
move=> m_ge0 /optimizeTeams_returned -> a /= /mapP[p _ ->] /=.
rewrite calculateConflictScoreE; elim: p => [|team p IHp]; first by rewrite big_nil.
by rewrite big_cons; have := @pair_sum_ge0 _ team m_ge0; lia.
Qed.

Lemma matrix_12_ge0 a b : (0 <= entry matrix_12 a b)%Z.
Proof. by rewrite /entry /=; do ![case: eqP => ? //=]. Qed.

Lemma optimizeTeams_score_ge0_witness :
  (0 <= conflictScore (to_assignment [:: [:: person 0 "1"; person 2 "3"];
                     [:: person 1 "2"; person 3 "4"]] 0%Z))%Z.
Proof.
by apply: (optimizeTeams_score_ge0 matrix_12_ge0 scenario_A); rewrite mem_head.
Defined.

Lemma combinations_all (T : Type) (s : seq T) : combinations s (size s) = [:: s].
Proof.
elim: s => [|x s IHs] //=.
by rewrite combinations_cons IHs combinations_small.
Qed.

(** X7.  One team of everyone: for a non-empty list of people and the single
    size [|people|] exactly one partition is generated, the team of all people
    in their order, and it is returned with the sum of the entries of all its
    pairs as its score. *)
Theorem optimizeTeams_single_team people conflictMatrix maxResults :
  people != [::] -> (0 < maxResults)%Z ->
  optimizeTeams people [:: Z.of_nat (size people)] conflictMatrix maxResults =
    Returned (mkResult [:: to_assignment [:: people] (pair_sum conflictMatrix people)] 1).
Proof.
move=> people_n0 k_pos.
have pos : all (Z.ltb 0) [:: Z.of_nat (size people)].
  by rewrite /= andbT; apply/Z.ltb_spec0; case: (people) people_n0 => //= *; lia.
rewrite /optimizeTeams [foldl Z.add _ _]/= eqxx generatePartitions_positive //.
rewrite [partitions _ _ _]/= Nat2Z.id combinations_all /= /visit /=.
rewrite calculateConflictScoreE big_seq1 /slice0.
have -> : (maxResults <? 0)%Z = false by apply/Z.ltb_spec0; lia.
by case eq_n: (Z.to_nat maxResults) => [|n] //; lia.
Qed.

Lemma optimizeTeams_single_team_witness :
  optimizeTeams [:: alice; bob] [:: Z.of_nat (size [:: alice; bob])] matrix_12
                defaultMaxResults =
    Returned (mkResult [:: to_assignment [:: [:: alice; bob]]
                             (pair_sum matrix_12 [:: alice; bob])] 1).
Proof.
exact: (@optimizeTeams_single_team [:: alice; bob] matrix_12 defaultMaxResults
          (erefl true) (erefl Lt)).
Defined.

(** ** Every partition has a generated representative *)

Lemma id_inj people : uniq [seq id p | p <- people] -> {in people &, injective id}.
Proof.
elim: people => [|x s IHs] //= /andP[x_notin uniq_s] p q.
rewrite !inE => /orP[/eqP ->|p_in] /orP[/eqP ->|q_in] // eq_id.
- by rewrite eq_id map_f in x_notin.
- by rewrite -eq_id map_f in x_notin.
- exact: IHs.
Qed.

Lemma least_team (l : seq (seq Person)) :
  l != [::] ->
  exists2 T, T \in l & forall T', T' \in l -> str_le (team_min T) (team_min T').
Proof.
elim: l => [|T l IHl] // _.
case: (altP (l =P [::])) => [->|/IHl [T0 T0_in T0_le]].
  by exists T; rewrite ?mem_head // => T'; rewrite inE => /eqP ->; apply: str_le_refl.
case le_T: (str_le (team_min T) (team_min T0)).
  exists T; rewrite ?mem_head // => T'; rewrite inE => /orP[/eqP ->|/T0_le le'].
    exact: str_le_refl.
  exact: str_le_trans le_T le'.
exists T0; first by rewrite inE T0_in orbT.
move=> T'; rewrite inE => /orP[/eqP ->|/T0_le //].
by move: le_T; rewrite str_leNgt => /negbFE /str_ltW.
Qed.

Lemma partitions_complete sizes people lastMinId (P : seq (seq Person)) :
  uniq [seq id p | p <- people] ->
  all (leq 1) sizes ->
  perm_eq [seq size T | T <- P] sizes ->
  (forall T, T \in P -> subseq T people) ->
  uniq (flatten P) ->
  (forall T, T \in P -> size T = head 0 sizes -> above lastMinId (team_min T)) ->
  exists2 Q, Q \in partitions people sizes lastMinId & perm_eq Q P.
Proof.
elim: sizes people lastMinId P => [|s rest IHrest] people lastMinId P uniq_ids.
  move=> _ /perm_nilP/eqP; rewrite -size_eq0 size_map size_eq0 => /eqP -> _ _ _.
  by exists [::]; rewrite ?mem_head.
case/andP=> s_pos rest_pos perm_sizes sub_P uniq_P above_P.
pose Ps := [seq T <- P | size T == s].
have Ps_n0 : Ps != [::].
  have: s \in [seq size T | T <- P] by rewrite (perm_mem perm_sizes) mem_head.
  case/mapP=> T T_in eq_s.
  have T_Ps : T \in Ps by rewrite mem_filter -eq_s eqxx.
  by apply/eqP => Ps_nil; rewrite Ps_nil in T_Ps.
have [T0] := least_team Ps_n0; rewrite mem_filter => /andP[/eqP size_T0 T0_in] T0_least.
have T0_comb : T0 \in combinations people s.
  by rewrite mem_combinations sub_P // size_T0 eqxx.
have T0_above : above lastMinId (team_min T0) by apply: above_P.
have perm_P : perm_eq P (T0 :: rem T0 P) by apply: perm_to_rem.
have := perm_flatten perm_P; rewrite /= => perm_flat.
have := uniq_P; rewrite (perm_uniq perm_flat) cat_uniq => /and3P[_ disjoint uniq_P'].
have T0_n0 : T0 != [::] by rewrite -size_eq0 size_T0 -lt0n.
have disj T p : T \in rem T0 P -> p \in T -> p \notin T0.
  move=> T_in p_in; apply: contra disjoint => p_T0; apply/hasP; exists p => //.
  by apply/flattenP; exists T.
set lo' := if same_next s rest then Some (team_min T0) else None.
have uniq' : uniq [seq id p | p <- without people T0].
  exact: (subseq_uniq (map_subseq id (filter_subseq _ _)) uniq_ids).
have perm' : perm_eq [seq size T | T <- rem T0 P] rest.
  rewrite -(perm_cons s) -{1}size_T0 -map_cons; apply: perm_trans perm_sizes.
  by rewrite perm_sym; apply: perm_map.
have sub' T : T \in rem T0 P -> subseq T (without people T0).
  move=> T_in; rewrite /without subseq_filter sub_P ?(mem_rem T_in) // andbT.
  by apply/allP => p; apply: disj.
have above' T : T \in rem T0 P -> size T = head 0 rest -> above lo' (team_min T).
  move=> T_in size_T; rewrite /lo'; case same: (same_next s rest) => //.
  have eq_s : size T = s by case: (rest) same size_T => //= s' _ /eqP -> ->.
  have T_P : T \in P by apply: mem_rem T_in.
  have le_T : str_le (team_min T0) (team_min T).
    by apply: T0_least; rewrite mem_filter eq_s eqxx.
  rewrite /above; apply/negP => ge_T.
  have eq_min := str_le_anti le_T ge_T.
  have T_n0 : T != [::] by rewrite -size_eq0 eq_s -lt0n.
  have /mapP[p0 p0_in eq_p0] := team_min_mem T0_n0.
  have /mapP[p p_in eq_p] := team_min_mem T_n0.
  have eq_pp : p0 = p.
    apply: (id_inj uniq_ids); rewrite -?eq_p0 -?eq_p //.
      exact: (mem_subseq (sub_P _ T0_in)).
    exact: (mem_subseq (sub_P _ T_P)).
  by have := disj T p T_in p_in; rewrite -eq_pp p0_in.
have [Q Q_in perm_Q] := IHrest _ lo' _ uniq' rest_pos perm' sub' uniq_P' above'.
exists (T0 :: Q); last first.
  by apply: perm_trans (_ : perm_eq (T0 :: rem T0 P) P); rewrite ?perm_cons // perm_sym.
by apply/partitionsP; exists T0, Q.
Qed.

Lemma valid_all_positive people teamSizes :
  valid_input people teamSizes -> all (Z.ltb 0) teamSizes.
Proof. by case/and3P. Qed.

Lemma valid_uniq_ids people teamSizes :
  valid_input people teamSizes -> uniq [seq id p | p <- people].
Proof. by case/and3P. Qed.

(** X8.  The symmetry breaking loses no partition: on valid input, every way
    to split people into disjoint teams whose sizes are the requested ones in
    some order, each team listing its members in the input order, is
    generated up to the order of the teams. *)
Theorem generatePartitions_complete people teamSizes (P : seq (seq Person)) :
  valid_input people teamSizes ->
  perm_eq [seq size T | T <- P] [seq Z.to_nat z | z <- teamSizes] ->
  (forall T, T \in P -> subseq T people) ->
  uniq (flatten P) ->
  exists2 Q, Q \in (generatePartitions people teamSizes None).1 & perm_eq Q P.
Proof.
move=> valid perm_sizes sub_P uniq_P.
rewrite (generatePartitions_positive _ _ (valid_all_positive valid)) /=.
apply: partitions_complete => //; first exact: valid_uniq_ids valid.
exact: valid_positive valid.
Qed.

Lemma generatePartitions_complete_witness :
  exists2 Q, Q \in (generatePartitions four [:: 2%Z; 2%Z] None).1
           & perm_eq Q [:: [:: person 2 "3"; person 3 "4"];
                           [:: person 0 "1"; person 1 "2"]].
Proof.
apply: generatePartitions_complete => // T.
by rewrite !inE => /orP[] /eqP ->.
Defined.

Lemma returned_least people teamSizes conflictMatrix maxResults r a q :
  optimizeTeams people teamSizes conflictMatrix maxResults = Returned r ->
  a \in bestAssignments r -> q \in (generatePartitions people teamSizes None).1 ->
  (conflictScore a <= calculateConflictScore q conflictMatrix)%Z.
Proof.
move=> /optimizeTeams_returned -> /= /mapP[p /mem_take] /=.
by rewrite mem_filter => /andP[/allP le_p _] -> /le_p /Z.leb_spec0.
Qed.

(** X9.  The returned score is a global minimum: on valid input no split of
    the people into disjoint teams of the requested sizes (the sizes in any
    order, each team in the input order) scores below a returned assignment,
    whatever the matrix holds. *)
Theorem optimizeTeams_global_minimum people teamSizes conflictMatrix maxResults r
    (P : seq (seq Person)) :
  valid_input people teamSizes ->
  optimizeTeams people teamSizes conflictMatrix maxResults = Returned r ->
  perm_eq [seq size T | T <- P] [seq Z.to_nat z | z <- teamSizes] ->
  (forall T, T \in P -> subseq T people) ->
  uniq (flatten P) ->
  forall a, a \in bestAssignments r ->
    (conflictScore a <= calculateConflictScore P conflictMatrix)%Z.
Proof.
move=> valid eq_r perm_sizes sub_P uniq_P a a_in.
have [Q] : exists2 Q, Q \in partitions people [seq Z.to_nat z | z <- teamSizes] None
                    & perm_eq Q P.
  apply: partitions_complete => //; first exact: valid_uniq_ids valid.
  exact: valid_positive valid.
move=> Q_in /(calculateConflictScore_perm_teams conflictMatrix) <-.
apply: returned_least eq_r a_in _.
by rewrite (generatePartitions_positive _ _ (valid_all_positive valid)).
Qed.

Lemma optimizeTeams_global_minimum_witness :
  (conflictScore (to_assignment [:: [:: person 0 "1"; person 2 "3"];
                     [:: person 1 "2"; person 3 "4"]] 0%Z) <=
     calculateConflictScore [:: [:: person 2 "3"; person 3 "4"];
                                [:: person 0 "1"; person 1 "2"]] matrix_12)%Z.
Proof.
apply: (@optimizeTeams_global_minimum four [:: 2%Z; 2%Z] matrix_12
          defaultMaxResults _ _ (erefl true) scenario_A); rewrite ?mem_head // => T.
by rewrite !inE => /orP[] /eqP ->.
Defined.

Lemma uniq_flatten_team (P : seq (seq Person)) T :
  uniq (flatten P) -> T \in P -> uniq T.
Proof.
elim: P => [|T0 P IHP] //=; rewrite cat_uniq inE => /and3P[uniq_T0 _ uniq_P].
by case/orP=> [/eqP ->|/(IHP uniq_P)].
Qed.

Lemma perm_flatten_map (f : seq Person -> seq Person) (P : seq (seq Person)) :
  (forall T, T \in P -> perm_eq (f T) T) ->
  perm_eq (flatten [seq f T | T <- P]) (flatten P).
Proof.
elim: P => [|T P IHP] //= perm_f.
apply: perm_cat; first by apply: perm_f; rewrite mem_head.
by apply: IHP => T' T'_in; apply: perm_f; rewrite inE T'_in orbT.
Qed.

(** X10.  With a matrix that holds every pair in both directions the minimum
    is global over all splits, whatever the order of the members inside a
    team: no split of the people into teams of the requested sizes scores
    below a returned assignment. *)
Theorem optimizeTeams_global_minimum_symmetric people teamSizes conflictMatrix
    maxResults r (P : seq (seq Person)) :
  symmetric conflictMatrix ->
  valid_input people teamSizes ->
  optimizeTeams people teamSizes conflictMatrix maxResults = Returned r ->
  perm_eq [seq size T | T <- P] [seq Z.to_nat z | z <- teamSizes] ->
  perm_eq (flatten P) people ->
  forall a, a \in bestAssignments r ->
    (conflictScore a <= calculateConflictScore P conflictMatrix)%Z.
Proof.
move=> sym valid eq_r perm_sizes perm_P a a_in.
have uniq_people := valid_uniq valid.
have uniq_P : uniq (flatten P) by rewrite (perm_uniq perm_P).
pose f (T : seq Person) := [seq p <- people | p \in T].
have perm_f T : T \in P -> perm_eq (f T) T.
  move=> T_in; apply: uniq_perm; first exact: filter_uniq.
    exact: uniq_flatten_team T_in.
  move=> p; rewrite mem_filter; case p_in: (p \in T) => //=.
  by rewrite -(perm_mem perm_P); apply/flattenP; exists T.
pose P' := [seq f T | T <- P].
have eq_score : calculateConflictScore P' conflictMatrix =
                calculateConflictScore P conflictMatrix.
  apply: calculateConflictScore_perm_members => //; first by rewrite size_map.
  move=> i; case: (ltnP i (size P)) => [lt_i|ge_i].
    by rewrite (nth_map [::]) //; apply: perm_f; apply: mem_nth.
  by rewrite !nth_default ?size_map.
have [Q] : exists2 Q, Q \in partitions people [seq Z.to_nat z | z <- teamSizes] None
                    & perm_eq Q P'.
  apply: partitions_complete => //.
  - exact: valid_uniq_ids valid.
  - exact: valid_positive valid.
  - rewrite -map_comp; apply: perm_trans perm_sizes.
    have -> // : [seq (size \o f) T | T <- P] = [seq size T | T <- P].
    by apply/eq_in_map => T /perm_f /perm_size.
  - by move=> T /mapP[T' _ ->]; apply: filter_subseq.
  - by rewrite (perm_uniq (perm_flatten_map perm_f)).
move=> Q_in /(calculateConflictScore_perm_teams conflictMatrix); rewrite eq_score => <-.
apply: returned_least eq_r a_in _.
by rewrite (generatePartitions_positive _ _ (valid_all_positive valid)).
Qed.

Lemma scenario_both :
  optimizeTeams four [:: 2%Z; 2%Z] matrix_both defaultMaxResults =
    Returned (mkResult
      [:: to_assignment [:: [:: person 0 "1"; person 2 "3"];
                            [:: person 1 "2"; person 3 "4"]] 0%Z;
          to_assignment [:: [:: person 0 "1"; person 3 "4"];
                            [:: person 1 "2"; person 2 "3"]] 0%Z]
      3).
Proof. by vm_compute. Qed.

Lemma optimizeTeams_global_minimum_symmetric_witness :
  (conflictScore (to_assignment [:: [:: person 0 "1"; person 2 "3"];
                     [:: person 1 "2"; person 3 "4"]] 0%Z) <=
     calculateConflictScore [:: [:: person 3 "4"; person 2 "3"];
                                [:: person 1 "2"; person 0 "1"]] matrix_both)%Z.
Proof.
apply: (@optimizeTeams_global_minimum_symmetric four [:: 2%Z; 2%Z] matrix_both
          defaultMaxResults _ _ matrix_both_symmetric (erefl true) scenario_both).
- by vm_compute.
- by vm_compute.
- by rewrite mem_head.
Defined.

(** ** What the symmetry breaking leaves *)

Lemma nonpositive_or_positive (teamSizes : seq Z) :
  has (fun z => (z <=? 0)%Z) teamSizes = ~~ all (Z.ltb 0) teamSizes.
Proof.
rewrite -has_predC; apply: eq_has => z /=.
by case: Z.leb_spec0; case: Z.ltb_spec0 => //; lia.
Qed.

Lemma partitions_increasing sizes people lastMinId (Q : seq (seq Person)) :
  Q \in partitions people sizes lastMinId ->
  (sizes != [::] -> above lastMinId (team_min (nth [::] Q 0))) /\
  (forall i, i.+1 < size sizes -> nth 0 sizes i = nth 0 sizes i.+1 ->
     str_lt (team_min (nth [::] Q i)) (team_min (nth [::] Q i.+1))).
Proof.
elim: sizes people lastMinId Q => [|s rest IHrest] people lastMinId Q; first by [].
case/partitionsP=> team [others [-> team_in team_above /IHrest[others_above others_incr]]].
split=> // -[|i] /=; last exact: others_incr.
case: (rest) others_above => // s' rest' /(_ isT) /= + _ eq_s.
by rewrite -eq_s eqxx aboveE.
Qed.

(** X11.  The order the symmetry breaking imposes: on any input, in every
    partition that is generated, two adjacent slots of the same size hold
    teams whose least ids increase strictly. *)
Theorem generatePartitions_increasing people teamSizes lastMinId
    (Q : seq (seq Person)) (i : nat) :
  Q \in (generatePartitions people teamSizes lastMinId).1 ->
  i.+1 < size teamSizes -> nth 0%Z teamSizes i = nth 0%Z teamSizes i.+1 ->
  str_lt (team_min (nth [::] Q i)) (team_min (nth [::] Q i.+1)).
Proof.
case nonpos: (has (fun z => (z <=? 0)%Z) teamSizes).
  by rewrite generatePartitions_nonpositive.
move: nonpos; rewrite nonpositive_or_positive => /negbFE pos.
rewrite generatePartitions_positive //= => /partitions_increasing[_ incr] lt_i eq_i.
apply: incr; first by rewrite size_map.
by rewrite !(nth_map 0%Z) ?eq_i // ltnW.
Qed.

Lemma generatePartitions_increasing_witness :
  str_lt (team_min (nth [::] [:: [:: person 0 "1"; person 2 "3"];
                                 [:: person 1 "2"; person 3 "4"]] 0))
         (team_min (nth [::] [:: [:: person 0 "1"; person 2 "3"];
                                 [:: person 1 "2"; person 3 "4"]] 1)).
Proof.
by apply: (@generatePartitions_increasing four [:: 2%Z; 2%Z] None _ 0); vm_compute.
Defined.

Lemma uniq_flatten_cons (A : eqType) (l : seq A) (g : A -> seq (seq A)) :
  uniq l -> (forall x, x \in l -> uniq (g x)) ->
  uniq (flatten [seq [seq x :: y | y <- g x] | x <- l]).
Proof.
elim: l => [|x l IHl] //= /andP[x_notin uniq_l] uniq_g.
have inj_cons : injective (cons x) by move=> y1 y2 [].
have uniq_rest : uniq (flatten [seq [seq x' :: y | y <- g x'] | x' <- l]).
  by apply: IHl => // x' x'_in; apply: uniq_g; rewrite inE x'_in orbT.
rewrite cat_uniq (map_inj_uniq inj_cons) uniq_g ?mem_head //= uniq_rest andbT.
apply/hasPn => z /flattenP[ys /mapP[x' x'_in ->] /mapP[y _ ->]].
apply/negP => /mapP[y' _ [eq_x _]].
by rewrite -eq_x x'_in in x_notin.
Qed.

Lemma partitions_uniq sizes people lastMinId :
  uniq people -> uniq (partitions people sizes lastMinId).
Proof.
elim: sizes people lastMinId => [|s rest IHrest] people lastMinId uniq_people //=.
apply: uniq_flatten_cons; first exact/filter_uniq/combinations_uniq.
by move=> team _; apply/IHrest/without_uniq.
Qed.

(** X12.  No partition is generated twice: when the people are distinct
    objects the generated partitions are pairwise different, on any sizes
    and any threshold. *)
Theorem generatePartitions_uniq people teamSizes lastMinId :
  uniq people -> uniq (generatePartitions people teamSizes lastMinId).1.
Proof.
move=> uniq_people; case nonpos: (has (fun z => (z <=? 0)%Z) teamSizes).
  by rewrite generatePartitions_nonpositive.
move: nonpos; rewrite nonpositive_or_positive => /negbFE pos.
by rewrite generatePartitions_positive //=; apply: partitions_uniq.
Qed.

Lemma generatePartitions_uniq_witness :
  uniq (generatePartitions four [:: 2%Z; 2%Z] None).1.
Proof. by apply: generatePartitions_uniq. Defined.

Lemma partitions_sizes sizes people lastMinId (Q : seq (seq Person)) :
  Q \in partitions people sizes lastMinId -> [seq size T | T <- Q] = sizes.
Proof.
elim: sizes people lastMinId Q => [|s rest IHrest] people lastMinId Q.
  by rewrite inE => /eqP ->.
case/partitionsP=> team [others [-> + _ /IHrest /= ->]].
by rewrite mem_combinations => /andP[_ /eqP ->].
Qed.

Lemma run_above rest people m (O : seq (seq Person)) T :
  adjacent_runs rest ->
  O \in partitions people rest (Some m) -> T \in O -> size T = head 0 rest ->
  str_lt m (team_min T).
Proof.
elim: rest people m O => [|s rest IHrest] people m O; first by rewrite inE => _ /eqP ->.
rewrite [adjacent_runs _]/= => /andP[adj adj_rest] /partitionsP[T' [O' [-> _]]].
rewrite aboveE => lt_m O'_in; rewrite inE [head _ _]/= => /orP[/eqP -> //|T_in] size_T.
have s_in : s \in rest.
  by rewrite -(partitions_sizes O'_in) -size_T; apply: map_f.
move: adj O'_in; rewrite s_in orbF => same; rewrite /same_next same => O'_in.
apply: str_lt_trans lt_m _; apply: IHrest O'_in T_in _ => //.
by case: (rest) same => //= s' _ /eqP ->.
Qed.

Lemma partitions_canonical sizes people lastMinId (Q1 Q2 : seq (seq Person)) :
  adjacent_runs sizes ->
  Q1 \in partitions people sizes lastMinId ->
  Q2 \in partitions people sizes lastMinId ->
  perm_eq Q1 Q2 -> Q1 = Q2.
Proof.
elim: sizes people lastMinId Q1 Q2 => [|s rest IHrest] people lastMinId Q1 Q2.
  by rewrite !inE => _ /eqP -> /eqP ->.
rewrite [adjacent_runs _]/= => /andP[adj adj_rest].
case/partitionsP=> T1 [O1 [-> T1_in _ O1_in]].
case/partitionsP=> T2 [O2 [-> T2_in _ O2_in]] perm_Q.
have size_T T : T \in combinations people s -> size T = s.
  by rewrite mem_combinations => /andP[_ /eqP].
have later Ta Tb (Ob : seq (seq Person)) :
    Ta \in combinations people s ->
    Ob \in partitions (without people Tb) rest
            (if same_next s rest then Some (team_min Tb) else None) ->
    Ta \in Ob -> str_lt (team_min Tb) (team_min Ta).
  move=> Ta_in Ob_in Ta_Ob.
  have s_in : s \in rest.
    by rewrite -(partitions_sizes Ob_in) -(size_T _ Ta_in); apply: map_f.
  move: adj Ob_in; rewrite s_in orbF => same; rewrite /same_next same => Ob_in.
  apply: run_above Ob_in Ta_Ob _ => //.
  by rewrite size_T //; case: (rest) same => //= s' _ /eqP ->.
have eq_T : T1 = T2.
  apply/eqP; apply/negPn/negP => neq_T.
  have T1_O2 : T1 \in O2.
    by have := mem_head T1 O1; rewrite (perm_mem perm_Q) inE (negbTE neq_T).
  have T2_O1 : T2 \in O1.
    by have := mem_head T2 O2; rewrite -(perm_mem perm_Q) inE eq_sym (negbTE neq_T).
  have lt21 := later _ _ _ T1_in O2_in T1_O2.
  have lt12 := later _ _ _ T2_in O1_in T2_O1.
  by rewrite (str_lt_asym lt12) in lt21.
move: O2_in perm_Q; rewrite -eq_T perm_cons => O2_in perm_O.
by rewrite (IHrest _ _ _ _ adj_rest O1_in O2_in perm_O).
Qed.

Lemma adjacent_runs_to_nat (teamSizes : seq Z) :
  all (Z.ltb 0) teamSizes -> adjacent_runs teamSizes ->
  adjacent_runs [seq Z.to_nat z | z <- teamSizes].
Proof.
elim: teamSizes => [|s rest IHrest] //= /andP[/Z.ltb_spec0 s_pos rest_pos].
case/andP=> adj /(IHrest rest_pos) ->; rewrite andbT.
case/orP: adj => [same|s_notin].
  by case: (rest) same => //= s' rest' /eqP ->; rewrite eqxx.
apply/orP; right; apply: contra s_notin => /mapP[z z_in eq_z].
have /Z.ltb_spec0 z_pos := allP rest_pos _ z_in.
by have -> : s = z by lia.
Qed.

(** X13.  One representative only: when equal sizes stand next to each other
    in [teamSizes], no two generated partitions consist of the same teams in
    a different order, on any people and any threshold. *)
Theorem generatePartitions_canonical people teamSizes lastMinId
    (Q1 Q2 : seq (seq Person)) :
  adjacent_runs teamSizes ->
  Q1 \in (generatePartitions people teamSizes lastMinId).1 ->
  Q2 \in (generatePartitions people teamSizes lastMinId).1 ->
  perm_eq Q1 Q2 -> Q1 = Q2.
Proof.
move=> adj; case nonpos: (has (fun z => (z <=? 0)%Z) teamSizes).
  by rewrite generatePartitions_nonpositive.
move: nonpos; rewrite nonpositive_or_positive => /negbFE pos.
rewrite generatePartitions_positive //=.
exact/partitions_canonical/adjacent_runs_to_nat.
Qed.

Lemma generatePartitions_canonical_witness :
  [:: [:: person 0 "1"; person 2 "3"]; [:: person 1 "2"; person 3 "4"]] =
  [:: [:: person 0 "1"; person 2 "3"]; [:: person 1 "2"; person 3 "4"]].
Proof.
by apply: (@generatePartitions_canonical four [:: 2%Z; 2%Z] None); vm_compute.
Defined.

(** Sizes that meet again after another size are not covered: with the sizes
    1, 2, 1 the same teams are generated in two orders. *)
Example separated_sizes_repeat :
  let generated :=
    (generatePartitions [:: person 0 "1"; person 1 "2"; person 2 "3"; person 3 "4"]
                        [:: 1%Z; 2%Z; 1%Z] None).1 in
  [:: [:: person 0 "1"]; [:: person 1 "2"; person 2 "3"]; [:: person 3 "4"]]
    \in generated /\
  [:: [:: person 3 "4"]; [:: person 1 "2"; person 2 "3"]; [:: person 0 "1"]]
    \in generated.
Proof. by vm_compute. Qed.

(** ** The optimise page and the server *)

Lemma foldl_Zadd_nseq a k t :
  foldl Z.add a (nseq k t) = (a + Z.of_nat k * t)%Z.
Proof.
elim: k a => [|k IHk] a; first by rewrite /= Z.add_0_r.
by rewrite [nseq _ _]/= [foldl _ _ _]/= IHk Nat2Z.inj_succ; lia.
Qed.

Lemma adjacent_runs_nseq (A : eqType) k (t : A) : adjacent_runs (nseq k t).
Proof.
elim: k => [|k IHk] //=; rewrite IHk andbT.
by case: k {IHk} => [|k] //=; rewrite eqxx.
Qed.

Lemma adjacent_runs_rcons (A : eqType) k (t r : A) :
  r != t -> adjacent_runs (rcons (nseq k t) r).
Proof.
move=> neq; elim: k => [|k IHk] //=; rewrite IHk andbT.
case: k {IHk} => [|k] /=; last by rewrite eqxx.
by rewrite (negbTE neq) inE eq_sym neq.
Qed.

Lemma calculateTeamSizes_shape (totalPeople : nat) (teamSize : Z) :
  (0 < teamSize)%Z ->
  exists q r,
    [/\ Page.calculateTeamSizes totalPeople teamSize =
          Some (if (0 <? r)%Z then rcons (nseq q teamSize) r else nseq q teamSize),
        Z.of_nat totalPeople = (Z.of_nat q * teamSize + r)%Z
      & (0 <= r < teamSize)%Z].
Proof.
move=> t_pos; rewrite /Page.calculateTeamSizes.
have -> : (teamSize == 0%Z) = false by apply/eqP; lia.
have n_ge0 : (0 <= Z.of_nat totalPeople)%Z by lia.
have eq_rem : Z.rem (Z.of_nat totalPeople) teamSize = (Z.of_nat totalPeople mod teamSize)%Z.
  by apply: Z.rem_mod_nonneg.
have neq0 : teamSize <> 0%Z by lia.
have := Z.div_mod (Z.of_nat totalPeople) teamSize neq0.
have := Z.mod_pos_bound (Z.of_nat totalPeople) teamSize t_pos.
have := Z.div_pos (Z.of_nat totalPeople) teamSize n_ge0 t_pos.
rewrite eq_rem; move: (_ / _)%Z (_ mod _)%Z => q r q_ge0 r_bound eq_n.
by exists (Z.to_nat q), r; split=> //; rewrite Z2Nat.id //; lia.
Qed.

Lemma calculateTeamSizes_sum (totalPeople : nat) (teamSize : Z) sizes :
  (0 < teamSize)%Z ->
  Page.calculateTeamSizes totalPeople teamSize = Some sizes ->
  foldl Z.add 0%Z sizes = Z.of_nat totalPeople /\ all (Z.ltb 0) sizes.
Proof.
move=> t_pos; have [q [r [-> eq_n r_bound]]] := calculateTeamSizes_shape totalPeople t_pos.
have all_t : all (Z.ltb 0) (nseq q teamSize).
  by rewrite all_nseq; apply/orP; right; apply/Z.ltb_spec0.
case: Z.ltb_spec0 => [r_pos|r_le0] [<-].
  rewrite -cats1 foldl_cat foldl_Zadd_nseq all_cat all_t /= andbT.
  by split; [lia | apply/Z.ltb_spec0].
by rewrite foldl_Zadd_nseq; split=> //; lia.
Qed.

(** X14.  The sizes the page computes for a positive team size: the call
    ends, the sizes add up to the number of people, each is positive and at
    most the team size, equal sizes stand together, and only the last can
    be smaller than the team size. *)
Theorem calculateTeamSizes_sound (totalPeople : nat) (teamSize : Z) :
  (0 < teamSize)%Z ->
  exists2 sizes,
    Page.calculateTeamSizes totalPeople teamSize = Some sizes &
    [/\ foldl Z.add 0%Z sizes = Z.of_nat totalPeople,
        all (fun s => (0 <? s)%Z && (s <=? teamSize)%Z) sizes,
        adjacent_runs sizes
      & forall i, i.+1 < size sizes -> nth 0%Z sizes i = teamSize].
Proof.
move=> t_pos; have [q [r [eq_sizes eq_n r_bound]]] := calculateTeamSizes_shape totalPeople t_pos.
exists (if (0 <? r)%Z then rcons (nseq q teamSize) r else nseq q teamSize) => //.
have [-> _] := calculateTeamSizes_sum t_pos eq_sizes.
have all_t : all (fun s => (0 <? s)%Z && (s <=? teamSize)%Z) (nseq q teamSize).
  rewrite all_nseq; apply/orP; right; apply/andP.
  by split; [apply/Z.ltb_spec0 | apply/Z.leb_spec0; lia].
case: Z.ltb_spec0 => [r_pos|r_le0]; split=> //.
- rewrite all_rcons all_t andbT; apply/andP.
  by split; [apply/Z.ltb_spec0 | apply/Z.leb_spec0; lia].
- by apply: adjacent_runs_rcons; apply/eqP; lia.
- by move=> i; rewrite size_rcons ltnS nth_rcons size_nseq => lt_i; rewrite lt_i nth_nseq lt_i.
- exact: adjacent_runs_nseq.
- by move=> i; rewrite size_nseq nth_nseq => /ltnW ->.
Qed.

Lemma calculateTeamSizes_sound_witness :
  exists2 sizes,
    Page.calculateTeamSizes 7 3 = Some sizes &
    [/\ foldl Z.add 0%Z sizes = 7%Z,
        all (fun s => (0 <? s)%Z && (s <=? 3)%Z) sizes,
        adjacent_runs sizes
      & forall i, i.+1 < size sizes -> nth 0%Z sizes i = 3%Z].
Proof. exact: (@calculateTeamSizes_sound 7 3 (erefl Lt)). Defined.

Lemma selected_n0 (candidates : seq Page.Candidate) teamSize conflictMatrix people
    teamSizes conflictMatrix' :
  Page.optimizeTeams candidates teamSize conflictMatrix =
    Page.Posted people teamSizes conflictMatrix' ->
  exists t,
    [/\ teamSize = Some t, (2 <= t <= Z.of_nat (size people))%Z,
        people = [seq Page.person c | c <- candidates & Page.selected c],
        conflictMatrix' = conflictMatrix
      & Page.calculateTeamSizes (size people) t = Some teamSizes].
Proof.
rewrite /Page.optimizeTeams; set sel := [seq _ | c <- _ & _].
case: (size sel == 0) => //; case: teamSize => [t|] //.
case: Z.ltb_spec0 => // t_ge2; case: Z.ltb_spec0 => // t_le.
case eq_sizes: (Page.calculateTeamSizes _ _) => [sizes|] // [<- <- <-].
by exists t; split=> //; lia.
Qed.

(** X15.  A click on the button shows an error of a guard or posts a body:
    the computation of the sizes is never reached with a team size for which
    it returns no list, whatever the candidates and the team size typed. *)
Theorem page_click_ends (candidates : seq Page.Candidate) (teamSize : option Z)
    (conflictMatrix : ConflictMatrix) :
  Page.optimizeTeams candidates teamSize conflictMatrix <> Page.NoSizes.
Proof.
rewrite /Page.optimizeTeams; set sel := [seq _ | c <- _ & _].
case: (size sel == 0) => //; case: teamSize => [t|] //.
case: Z.ltb_spec0 => // t_ge2; case: Z.ltb_spec0 => // _.
rewrite /Page.calculateTeamSizes.
by have -> : (t == 0%Z) = false by apply/eqP; lia.
Qed.

Lemma posted_valid (candidates : seq Page.Candidate) teamSize conflictMatrix people
    teamSizes conflictMatrix' :
  uniq [seq id (Page.person c) | c <- candidates & Page.selected c] ->
  Page.optimizeTeams candidates teamSize conflictMatrix =
    Page.Posted people teamSizes conflictMatrix' ->
  valid_input people teamSizes.
Proof.
move=> uniq_ids /selected_n0[t [_ t_bound eq_people _ eq_sizes]].
have t_pos : (0 < t)%Z by lia.
have [sum_sizes pos] := calculateTeamSizes_sum t_pos eq_sizes.
by rewrite /valid_input pos sum_sizes eqxx eq_people -map_comp.
Qed.

(** X16.  What the page posts is valid input: when the selected candidates
    have distinct ids, the body holds exactly the selected candidates, the
    matrix of the page, and sizes that are positive and add up to the number
    of people. *)
Theorem page_posts_valid_input (candidates : seq Page.Candidate) (teamSize : option Z)
    (conflictMatrix : ConflictMatrix) people teamSizes conflictMatrix' :
  uniq [seq id (Page.person c) | c <- candidates & Page.selected c] ->
  Page.optimizeTeams candidates teamSize conflictMatrix =
    Page.Posted people teamSizes conflictMatrix' ->
  [/\ people = [seq Page.person c | c <- candidates & Page.selected c],
      conflictMatrix' = conflictMatrix
    & valid_input people teamSizes].
Proof.
move=> uniq_ids posted; have valid := posted_valid uniq_ids posted.
by have [t [_ _ eq_people eq_matrix _]] := selected_n0 posted.
Qed.

Lemma page_posts_valid_input_witness :
  valid_input [:: alice; bob; person 2 "3"] [:: 2%Z; 1%Z].
Proof.
have [] // := @page_posts_valid_input
  [:: Page.mkCandidate alice true; Page.mkCandidate (person 9 "9") false;
      Page.mkCandidate bob true; Page.mkCandidate (person 2 "3") true]
  (Some 2%Z) matrix_12 [:: alice; bob; person 2 "3"] [:: 2%Z; 1%Z] matrix_12.
Defined.

Lemma valid_returns people teamSizes conflictMatrix maxResults :
  valid_input people teamSizes -> (0 < maxResults)%Z ->
  exists2 r,
    optimizeTeams people teamSizes conflictMatrix maxResults = Returned r &
    0 < size (bestAssignments r) <= Z.to_nat maxResults.
Proof.
move=> valid k_pos; set generated := (generatePartitions people teamSizes None).1.
rewrite (optimizeTeams_valid _ _ valid) -/generated; eexists; first by [].
have gen_n0 : generated != [::].
  rewrite -size_eq0 -lt0n valid_count // -(valid_sum valid).
  exact/canonical_count_gt0/(valid_positive valid).
rewrite /= slice0_take // size_take_min size_map leq_min geq_minl !andbT.
apply/andP; split; first by apply/ltP; lia.
case eq_min: (min_score conflictMatrix generated) => [mn|].
  exact: ties_nonempty eq_min.
by move/min_score_none: eq_min gen_n0 => ->.
Qed.

(** X17.  From the click to the answer: when the selected candidates have
    distinct ids, whatever the page posts is answered with status 200 and
    between one and ten assignments, whichever objects the server builds for
    the people of the body. *)
Theorem page_request_answered (candidates : seq Page.Candidate) (teamSize : option Z)
    (conflictMatrix : ConflictMatrix) people teamSizes conflictMatrix'
    (received : seq Person) :
  uniq [seq id (Page.person c) | c <- candidates & Page.selected c] ->
  Page.optimizeTeams candidates teamSize conflictMatrix =
    Page.Posted people teamSizes conflictMatrix' ->
  [seq content p | p <- received] = [seq content p | p <- people] ->
  exists2 r,
    Server.post_optimize
      (Server.mkBody (Some received) (Some teamSizes) (Some conflictMatrix')) =
      Server.Status200 r &
    0 < size (bestAssignments r) <= 10.
Proof.
move=> uniq_ids posted eq_content.
have /and3P[pos sum_sizes uniq_people] := posted_valid uniq_ids posted.
have eq_ids : [seq id p | p <- received] = [seq id p | p <- people].
  have := congr1 (map fst) eq_content; rewrite -!map_comp.
  by [].
have valid : valid_input received teamSizes.
  by rewrite /valid_input pos eq_ids uniq_people -(size_map id) eq_ids size_map sum_sizes.
have [r eq_r bounds] := valid_returns conflictMatrix' valid (erefl : (0 < defaultMaxResults)%Z).
by exists r => //; rewrite /Server.post_optimize /= eq_r.
Qed.

Lemma page_request_answered_witness :
  exists2 r,
    Server.post_optimize
      (Server.mkBody (Some [:: person 20 "1"; person 21 "2"; person 22 "3"])
                     (Some [:: 2%Z; 1%Z]) (Some matrix_12)) = Server.Status200 r &
    0 < size (bestAssignments r) <= 10.
Proof.
by apply: (@page_request_answered
  [:: Page.mkCandidate alice true; Page.mkCandidate (person 9 "9") false;
      Page.mkCandidate bob true; Page.mkCandidate (person 2 "3") true]
  (Some 2%Z) matrix_12 [:: alice; bob; person 2 "3"]).
Defined.

(** X18.  The validation error does not reach the client: a body with all
    three fields whose sizes do not add up to the number of people is
    answered with status 500 and the fixed text, not with status 400 and not
    with the message of the error. *)
Theorem post_optimize_mismatch people teamSizes conflictMatrix :
  foldl Z.add 0%Z teamSizes <> Z.of_nat (size people) ->
  Server.post_optimize
    (Server.mkBody (Some people) (Some teamSizes) (Some conflictMatrix)) =
    Server.Status500 "Internal server error".
Proof.
by move=> /eqP neq; rewrite /Server.post_optimize /= /optimizeTeams neq.
Qed.

Lemma post_optimize_mismatch_witness :
  Server.post_optimize
    (Server.mkBody (Some [:: alice; bob]) (Some [:: 3%Z]) (Some matrix_12)) =
    Server.Status500 "Internal server error".
Proof. by apply: post_optimize_mismatch. Defined.

(** X19.  Every answer with status 200 holds at most ten assignments, all of
    one score, and the status is 400 only when a field is missing. *)
Theorem post_optimize_answer (req : Server.body) :
  match Server.post_optimize req with
  | Server.Status200 r =>
      size (bestAssignments r) <= 10 /\
      (forall a b, a \in bestAssignments r -> b \in bestAssignments r ->
         conflictScore a = conflictScore b)
  | Server.Status400 _ =>
      [|| Server.people req == None, Server.teamSizes req == None
        | Server.conflictMatrix req == None]
  | Server.Status500 _ => True
  end.
Proof.
case: req => [[people|] [teamSizes|] [conflictMatrix|]] //=.
rewrite /Server.post_optimize /=.
case eq_r: (optimizeTeams _ _ _ _) => [r|] //.
rewrite (optimizeTeams_returned eq_r) /=; split.
  by rewrite size_map size_take_min geq_minl.
move=> a b /mapP[p /mem_take p_in ->] /mapP[q /mem_take q_in ->] /=.
move: p_in q_in; rewrite !mem_filter => /andP[/allP le_p p_in] /andP[/allP le_q q_in].
by have /Z.leb_spec0 := le_p _ q_in; have /Z.leb_spec0 := le_q _ p_in; lia.
Qed.

Lemma post_optimize_answer_witness :
  size (bestAssignments
          (mkResult
             [:: to_assignment [:: [:: person 0 "1"; person 2 "3"];
                                   [:: person 1 "2"; person 3 "4"]] 0%Z;
                 to_assignment [:: [:: person 0 "1"; person 3 "4"];
                                   [:: person 1 "2"; person 2 "3"]] 0%Z]
             3)) <= 10.
Proof.
have [le_10 _] := post_optimize_answer
  (Server.mkBody (Some four) (Some [:: 2%Z; 2%Z]) (Some matrix_12)).
exact: le_10.
Defined.

(** ** What the page lists under a team *)

Lemma getConflictBetween_entry (conflictMatrix : ConflictMatrix) a b :
  symmetric conflictMatrix ->
  getConflictBetween conflictMatrix a b = entry conflictMatrix a b.
Proof.
move=> sym; have := sym a b; rewrite /getConflictBetween /entry.
case: (lookup conflictMatrix a) => [row|] /=; first case: (lookup row b) => [c|] //=.
  by case: (lookup conflictMatrix b) => [row'|] //=; case: (lookup row' a).
by case: (lookup conflictMatrix b) => [row'|] //=; case: (lookup row' a).
Qed.

Lemma getConflictBetween_ge (conflictMatrix : ConflictMatrix) a b :
  (forall a b, (0 <= entry conflictMatrix a b)%Z) ->
  (entry conflictMatrix a b <= getConflictBetween conflictMatrix a b)%Z.
Proof.
move=> m_ge0; have := m_ge0 b a; rewrite /getConflictBetween /entry.
case: (lookup conflictMatrix a) => [row|] /=; first case: (lookup row b) => [c|] /=.
- by move=> _; lia.
- by case: (lookup conflictMatrix b) => [row'|] //=; case: (lookup row' a).
- by case: (lookup conflictMatrix b) => [row'|] //=; case: (lookup row' a).
Qed.

Lemma listed_row (f g : Person -> Z) (later : seq Person) :
  (forall q, (f q <= g q)%Z) -> (forall q, (0 <= g q)%Z) ->
  (\big[Z.add/0%Z]_(q <- later) f q <=
   \big[Z.add/0%Z]_(q <- later | (0 <? g q)%Z) g q)%Z.
Proof.
move=> le_fg g_ge0; elim: later => [|q later IHlater]; first by rewrite !big_nil.
rewrite !big_cons; have := le_fg q; have := g_ge0 q.
by case: Z.ltb_spec0; lia.
Qed.

Lemma listed_team (conflictMatrix : ConflictMatrix) (team : seq Person) :
  (forall a b, (0 <= entry conflictMatrix a b)%Z) ->
  (pair_sum conflictMatrix team <=
   \big[Z.add/0%Z]_(line <- Page.team_conflicts conflictMatrix team) line.2)%Z.
Proof.
move=> m_ge0; elim: team => [|p team IHteam] /=; first by rewrite big_nil.
rewrite big_cat big_map big_filter /=.
have := @listed_row (fun q => entry conflictMatrix (id p) (id q))
         (fun q => getConflictBetween conflictMatrix (id p) (id q)) team.
move=> /(_ (fun q => @getConflictBetween_ge conflictMatrix (id p) (id q) m_ge0)) le_row.
have g_ge0 q : (0 <= getConflictBetween conflictMatrix (id p) (id q))%Z.
  by have := @getConflictBetween_ge conflictMatrix (id p) (id q) m_ge0; have := m_ge0 (id p) (id q); lia.
by have := le_row g_ge0; lia.
Qed.

Lemma listed_team_eq (conflictMatrix : ConflictMatrix) (team : seq Person) :
  symmetric conflictMatrix -> (forall a b, (0 <= entry conflictMatrix a b)%Z) ->
  \big[Z.add/0%Z]_(line <- Page.team_conflicts conflictMatrix team) line.2 =
  pair_sum conflictMatrix team.
Proof.
move=> sym m_ge0; elim: team => [|p team IHteam] /=; first by rewrite big_nil.
rewrite big_cat big_map big_filter /= IHteam; congr (_ + _)%Z.
elim: (team) => [|q later IHlater]; first by rewrite !big_nil.
rewrite !big_cons IHlater getConflictBetween_entry //.
by have := m_ge0 (id p) (id q); case: Z.ltb_spec0; lia.
Qed.

Lemma displayed_totalE (conflictMatrix : ConflictMatrix) (p : seq (seq Person)) score :
  displayed_total conflictMatrix (to_assignment p score) =
  \big[Z.add/0%Z]_(team <- p)
    \big[Z.add/0%Z]_(line <- Page.team_conflicts conflictMatrix team) line.2.
Proof. by rewrite /displayed_total /= big_map. Qed.

(** X20.  The page never lists less than was charged: when no stored count
    is negative, the conflicts listed under the teams of a returned assignment
    add up to at least its score. *)
Theorem listed_conflicts_cover_score people teamSizes conflictMatrix maxResults r :
  (forall a b, (0 <= entry conflictMatrix a b)%Z) ->
  optimizeTeams people teamSizes conflictMatrix maxResults = Returned r ->
  forall a, a \in bestAssignments r ->
    (conflictScore a <= displayed_total conflictMatrix a)%Z.
Proof.
move=> m_ge0 /optimizeTeams_returned -> a /= /mapP[p _ ->].
rewrite displayed_totalE /= calculateConflictScoreE.
elim: p => [|team p IHp]; first by rewrite !big_nil.
by rewrite !big_cons; have := @listed_team _ team m_ge0; lia.
Qed.

Lemma listed_conflicts_cover_score_witness :
  (conflictScore (to_assignment [:: [:: person 0 "1"; person 2 "3"];
                     [:: person 1 "2"; person 3 "4"]] 0%Z) <=
     displayed_total matrix_12 (to_assignment [:: [:: person 0 "1"; person 2 "3"];
                     [:: person 1 "2"; person 3 "4"]] 0%Z))%Z.
Proof.
by apply: (listed_conflicts_cover_score matrix_12_ge0 scenario_A); rewrite mem_head.
Defined.

(** X21.  With a matrix that holds every pair in both directions and no
    negative count, the conflicts listed under the teams of a returned
    assignment add up to exactly its score. *)
Theorem listed_conflicts_add_up people teamSizes conflictMatrix maxResults r :
  symmetric conflictMatrix ->
  (forall a b, (0 <= entry conflictMatrix a b)%Z) ->
  optimizeTeams people teamSizes conflictMatrix maxResults = Returned r ->
  forall a, a \in bestAssignments r ->
    displayed_total conflictMatrix a = conflictScore a.
Proof.
move=> sym m_ge0 /optimizeTeams_returned -> a /= /mapP[p _ ->].
rewrite displayed_totalE /= calculateConflictScoreE.
by apply: eq_bigr => team _; apply: listed_team_eq.
Qed.

Lemma matrix_both_ge0 a b : (0 <= entry matrix_both a b)%Z.
Proof. by rewrite /entry /=; do ![case: eqP => ? //=]. Qed.

Lemma listed_conflicts_add_up_witness :
  displayed_total matrix_both (to_assignment [:: [:: person 0 "1"; person 2 "3"];
                     [:: person 1 "2"; person 3 "4"]] 0%Z) =
  conflictScore (to_assignment [:: [:: person 0 "1"; person 2 "3"];
                     [:: person 1 "2"; person 3 "4"]] 0%Z).
Proof.
by apply: (listed_conflicts_add_up matrix_both_symmetric matrix_both_ge0 scenario_both);
  rewrite mem_head.
Defined.

(** ** The suggested team sizes of the data scripts *)

Lemma suggested_cases (totalPeople : nat) (sizes : seq nat) :
  sizes \in suggestedTeamSizes totalPeople ->
  let q := totalPeople %/ 4 in
  [\/ exists2 s, totalPeople = (totalPeople %/ s) * s /\ 3 <= s <= 4
                & sizes = nseq (totalPeople %/ s) s,
      [/\ totalPeople = q * 4 + 1, 2 <= q & sizes = 5 :: nseq (q - 1) 4],
      [/\ totalPeople = q * 4 + 2, 1 <= q & sizes = 3 :: 3 :: nseq (q - 1) 4]
    | totalPeople = q * 4 + 3 /\ sizes = 3 :: nseq q 4].
Proof.
rewrite /suggestedTeamSizes !mem_cat => /or3P[] /=.
- case: eqP => // eq_r; rewrite inE => /eqP ->; constructor 1; exists 4 => //.
  by rewrite {1}(divn_eq totalPeople 4) eq_r addn0.
- case: eqP => // eq_r; rewrite inE => /eqP ->; constructor 1; exists 3 => //.
  by rewrite {1}(divn_eq totalPeople 3) eq_r addn0.
case: (7 <= totalPeople) => //.
have := divn_eq totalPeople 4; have := ltn_pmod totalPeople (isT : 0 < 4).
case: (totalPeople %% 4) => [|[|[|[|r]]]] //= _ eq_n.
- by case: (leqP 2 _) => // q_ge2; rewrite inE => /eqP ->; constructor 2.
- by case: (leqP 1 _) => // q_ge1; rewrite inE => /eqP ->; constructor 3.
- by rewrite inE => /eqP ->; constructor 4.
Qed.

Lemma suggested_sum_range (totalPeople : nat) (sizes : seq nat) :
  sizes \in suggestedTeamSizes totalPeople ->
  sumn sizes = totalPeople /\ all (fun s => 3 <= s <= 5) sizes.
Proof.
move=> /suggested_cases /=; set q := totalPeople %/ 4.
case=> [[s [eq_n range] ->]|[eq_n q_ge ->]|[eq_n q_ge ->]|[eq_n ->]].
- rewrite sumn_nseq mulnC -eq_n all_nseq; split=> //; apply/orP; right.
  by case/andP: range => -> /leq_trans ->.
- rewrite /= sumn_nseq all_nseq orbT; split=> //.
  by rewrite [RHS]eq_n; move/ltP: q_ge; rewrite -!plusE -!multE -!minusE; lia.
- rewrite /= sumn_nseq all_nseq orbT; split=> //.
  by rewrite [RHS]eq_n; move/ltP: q_ge; rewrite -!plusE -!multE -!minusE; lia.
- rewrite /= sumn_nseq all_nseq orbT; split=> //.
  by rewrite [RHS]eq_n -!plusE -!multE; lia.
Qed.

(** X22.  Every suggestion of the scripts is a split of all the people:
    its sizes add up to the number of people, each size is 3, 4 or 5, and
    equal sizes stand together. *)
Theorem suggestedTeamSizes_sound (totalPeople : nat) (sizes : seq nat) :
  sizes \in suggestedTeamSizes totalPeople ->
  [/\ sumn sizes = totalPeople, all (fun s => 3 <= s <= 5) sizes
    & adjacent_runs sizes].
Proof.
move=> sizes_in; have [eq_sum range] := suggested_sum_range sizes_in.
split=> //; move/suggested_cases: sizes_in => /=.
case=> [[s _ ->]|[_ _ ->]|[_ _ ->]|[_ ->]] /=.
- exact: adjacent_runs_nseq.
- by rewrite adjacent_runs_nseq mem_nseq andbF orbT.
- by rewrite adjacent_runs_nseq mem_nseq andbF orbT.
- by rewrite adjacent_runs_nseq mem_nseq andbF orbT.
Qed.

Lemma suggestedTeamSizes_sound_witness :
  [/\ sumn [:: 3; 3; 4] = 10, all (fun s => 3 <= s <= 5) [:: 3; 3; 4]
    & adjacent_runs [:: 3; 3; 4]].
Proof. by apply: (@suggestedTeamSizes_sound 10). Defined.

(** X23.  From seven people on there is always a suggestion. *)
Theorem suggestedTeamSizes_some (totalPeople : nat) :
  7 <= totalPeople -> suggestedTeamSizes totalPeople != [::].
Proof.
move=> n_ge7; rewrite /suggestedTeamSizes n_ge7 /=.
have := divn_eq totalPeople 4; have := ltn_pmod totalPeople (isT : 0 < 4).
case: (totalPeople %% 4) => [|[|[|[|r]]]] //= _ eq_n.
- have -> /= : 1 < totalPeople %/ 4.
    by move: n_ge7; rewrite {1}eq_n; case: (_ %/ 4) => [|[|q]].
  by case: (_ == 0).
- have -> /= : 0 < totalPeople %/ 4.
    by move: n_ge7; rewrite {1}eq_n; case: (_ %/ 4).
  by case: (_ == 0).
- by case: (_ == 0).
Qed.

Lemma suggestedTeamSizes_some_witness : suggestedTeamSizes 7 != [::].
Proof. by apply: suggestedTeamSizes_some. Defined.

(** X24.  A suggestion can be run: for people with distinct ids, any
    matrix and a positive cap, the optimiser called with a suggestion for
    their number returns, with at least one assignment. *)
Theorem suggestedTeamSizes_run people (sizes : seq nat) conflictMatrix maxResults :
  uniq [seq id p | p <- people] ->
  sizes \in suggestedTeamSizes (size people) ->
  (0 < maxResults)%Z ->
  exists2 r,
    optimizeTeams people [seq Z.of_nat s | s <- sizes] conflictMatrix maxResults =
      Returned r &
    0 < size (bestAssignments r) <= Z.to_nat maxResults.
Proof.
move=> uniq_ids /suggested_sum_range[eq_sum range] k_pos.
have pos : all (Z.ltb 0) [seq Z.of_nat s | s <- sizes].
  rewrite all_map; apply/allP => s /(allP range) /= /andP[/ltP s_ge _].
  by apply/Z.ltb_spec0; lia.
apply: valid_returns => //; rewrite /valid_input pos uniq_ids andbT /=.
rewrite (foldl_Zadd _ pos) -map_comp Z.add_0_l; apply/eqP; congr Z.of_nat.
by rewrite -eq_sum; congr sumn; rewrite -[RHS]map_id; apply: eq_map => s /=; rewrite Nat2Z.id.
Qed.

Lemma suggestedTeamSizes_run_witness :
  exists2 r,
    optimizeTeams nine [seq Z.of_nat s | s <- [:: 5; 4]] matrix_12 defaultMaxResults =
      Returned r &
    0 < size (bestAssignments r) <= Z.to_nat defaultMaxResults.
Proof. by apply: suggestedTeamSizes_run. Defined.

(** ** Further edge cases of the driver *)

(** X25.  A first size that is not positive, with sizes that pass the sum
    check: the call throws before any partition is counted, a TypeError for
    the size 0 and a RangeError for a negative size. *)
Theorem optimizeTeams_first_size people (z : Z) (rest : seq Z) conflictMatrix
    maxResults :
  foldl Z.add 0%Z (z :: rest) = Z.of_nat (size people) -> (z <= 0)%Z ->
  optimizeTeams people (z :: rest) conflictMatrix maxResults =
    Threw (if z == 0%Z then TypeError else RangeError) 0.
Proof.
move=> eq_sum z_le0; rewrite /optimizeTeams eq_sum eqxx /=.
rewrite /gen_for /combinationsZ; case: Z.ltb_spec0 => [z_neg|z_ge0] /=.
  by have -> : (z == 0%Z) = false by apply/eqP; lia.
by have -> : z = 0%Z by lia.
Qed.

Lemma optimizeTeams_first_size_witness :
  optimizeTeams [:: alice; bob] [:: (-1)%Z; 3%Z] matrix_12 defaultMaxResults =
    Threw RangeError 0.
Proof. by apply: (@optimizeTeams_first_size [:: alice; bob] (-1)%Z [:: 3%Z]). Defined.

Lemma partitions_subseq sizes people lastMinId (Q : seq (seq Person)) T :
  Q \in partitions people sizes lastMinId -> T \in Q -> subseq T people.
Proof.
elim: sizes people lastMinId Q => [|s rest IHrest] people lastMinId Q.
  by rewrite inE => /eqP ->.
case/partitionsP=> team [others [-> team_in _ others_in]].
rewrite inE => /orP[/eqP ->|T_in]; first exact: combinations_subseq team_in.
by apply: subseq_trans (IHrest _ _ _ others_in T_in) (filter_subseq _ _).
Qed.

(** X26.  Teams keep the input order: on any input, every team of every
    generated partition lists its members in the order in which they stand
    in [people]; this is the order in which the scorer reads the matrix. *)
Theorem generatePartitions_subseq people teamSizes lastMinId
    (Q : seq (seq Person)) (T : seq Person) :
  Q \in (generatePartitions people teamSizes lastMinId).1 -> T \in Q ->
  subseq T people.
Proof.
case nonpos: (has (fun z => (z <=? 0)%Z) teamSizes).
  by rewrite generatePartitions_nonpositive.
move: nonpos; rewrite nonpositive_or_positive => /negbFE pos.
by rewrite generatePartitions_positive //=; apply: partitions_subseq.
Qed.

Lemma generatePartitions_subseq_witness :
  subseq [:: person 1 "2"; person 3 "4"] four.
Proof.
by apply: (@generatePartitions_subseq four [:: 2%Z; 2%Z] None
             [:: [:: person 0 "1"; person 2 "3"]; [:: person 1 "2"; person 3 "4"]]).
Defined.

(** ** The selection on the page *)

(** X27.  Toggling the same id twice restores the list of candidates, and a
    toggle never changes who the candidates are. *)
Theorem toggleCandidate_twice (candidates : seq Page.Candidate) (candidateId : string) :
  Page.toggleCandidate (Page.toggleCandidate candidates candidateId) candidateId =
    candidates /\
  [seq Page.person c | c <- Page.toggleCandidate candidates candidateId] =
    [seq Page.person c | c <- candidates].
Proof.
elim: candidates => [|[p sel] rest [IHtwice IHperson]] //=.
case eq_id: (id p == candidateId) => /=; first by rewrite eq_id negbK.
by rewrite eq_id IHtwice IHperson.
Qed.

(** X28.  After [deselectAll] a click is rejected for want of candidates,
    whatever the team size; after [selectAll] a click that posts, posts all
    the candidates. *)
Theorem select_all_or_none (candidates : seq Page.Candidate) (teamSize : option Z)
    (conflictMatrix : ConflictMatrix) :
  Page.optimizeTeams (Page.deselectAll candidates) teamSize conflictMatrix =
    Page.Rejected Page.NoCandidate /\
  (forall people teamSizes conflictMatrix',
     Page.optimizeTeams (Page.selectAll candidates) teamSize conflictMatrix =
       Page.Posted people teamSizes conflictMatrix' ->
     people = [seq Page.person c | c <- candidates]).
Proof.
split.
  rewrite /Page.optimizeTeams /Page.deselectAll filter_map /= filter_pred0.
  by [].
move=> people teamSizes conflictMatrix' /selected_n0[t [_ _ -> _ _]].
by rewrite /Page.selectAll filter_map /= filter_predT -map_comp.
Qed.

Lemma select_all_or_none_witness :
  Page.optimizeTeams
    (Page.deselectAll [:: Page.mkCandidate alice true; Page.mkCandidate bob false])
    (Some 2%Z) matrix_12 = Page.Rejected Page.NoCandidate.
Proof.
by have [] := select_all_or_none
  [:: Page.mkCandidate alice true; Page.mkCandidate bob false] (Some 2%Z) matrix_12.
Defined.
